(** * PlateSpotter: wikitext table extraction and row classification

    A shallow embedding of the parsing core of
    [scripts/download_wiki_plates.py]: the two lookup tables
    [WIKI_CODE_TO_ISO] and [TERRITORY_NAMES], the row classifier
    [_parse_table_row] and the table extractor [parse_plate_tables],
    together with the library calls they rely on ([str.find], slicing,
    [str.strip], [str.lower], the [in] operator, [re.search],
    [re.findall] and [re.split] at the three patterns of the script).

    A Python [str] is modelled as a list of characters.  Characters are
    8-bit ([ascii]), read as the code points below 256; [str.lower] and
    [str.strip] are given on that range. *)

From Stdlib Require Import Ascii String ZArith Lia Bool Arith List Sorted.
Import ListNotations.

Open Scope string_scope.
Open Scope nat_scope.
Open Scope list_scope.

(* ------------------------------------------------------------------ *)
(** ** Text *)

Definition text := list ascii.

(** String literals stand for the list of their characters. *)
Coercion list_ascii_of_string : string >-> list.

Definition txt (s : string) : text := list_ascii_of_string s.

Definition text_eq_dec : forall a b : text, {a = b} + {a <> b} :=
  list_eq_dec ascii_dec.

Definition text_eqb (a b : text) : bool :=
  if text_eq_dec a b then true else false.

(** Line feed, the ["\n"] of the row separator. *)
Definition LF : ascii := ascii_of_nat 10.

(** [str.lower] on code points below 256: [A-Z] and the Latin-1 capitals
    U+00C0..U+00DE (U+00D7, the multiplication sign, apart) move up by 32. *)
Definition lower_char (c : ascii) : ascii :=
  let n := nat_of_ascii c in
  if ((65 <=? n) && (n <=? 90))
     || ((192 <=? n) && (n <=? 222) && negb (n =? 215))
  then ascii_of_nat (n + 32)
  else c.

Definition lower (s : text) : text := map lower_char s.

(** [str.isspace] on code points below 256. *)
Definition is_space (c : ascii) : bool :=
  let n := nat_of_ascii c in
  ((9 <=? n) && (n <=? 13)) || ((28 <=? n) && (n <=? 32))
  || (n =? 133) || (n =? 160).

Fixpoint lstrip (s : text) : text :=
  match s with
  | [] => []
  | c :: s' => if is_space c then lstrip s' else s
  end.

Definition rstrip (s : text) : text := rev (lstrip (rev s)).

(** [s.strip()] *)
Definition strip (s : text) : text := rstrip (lstrip s).

(** [s.startswith(p)] *)
Fixpoint startswith (s p : text) {struct p} : bool :=
  match p, s with
  | [], _ => true
  | _ :: _, [] => false
  | a :: p', b :: s' => Ascii.eqb a b && startswith s' p'
  end.

(** [p in s] *)
Fixpoint contains (s p : text) : bool :=
  startswith s p
  || match s with
     | [] => false
     | _ :: s' => contains s' p
     end.

(** The position of the first occurrence of [sub] in [s], counted from
    the head of [s]. *)
Fixpoint index_of (sub s : text) : option nat :=
  if startswith s sub then Some 0
  else match s with
       | [] => None
       | _ :: s' => option_map S (index_of sub s')
       end.

(** [s.find(sub, start)]: a negative [start] counts from the end and is
    clamped at 0; the result is [-1] when there is no occurrence at or
    after [start]. *)
Definition find (s sub : text) (start : Z) : Z :=
  let len := Z.of_nat (length s) in
  let start := if (start <? 0)%Z then Z.max 0 (start + len) else start in
  if (len <? start)%Z then (-1)%Z
  else match index_of sub (skipn (Z.to_nat start) s) with
       | Some i => (start + Z.of_nat i)%Z
       | None => (-1)%Z
       end.

(** [s[a:b]] *)
Definition slice (s : text) (a b : Z) : text :=
  let len := Z.of_nat (length s) in
  let clamp i := if (i <? 0)%Z then Z.max 0 (i + len) else Z.min i len in
  let a := clamp a in
  let b := clamp b in
  firstn (Z.to_nat (b - a)) (skipn (Z.to_nat a) s).

(* ------------------------------------------------------------------ *)
(** ** Regular expressions of the script

    Each pattern is a sequence of literals and greedy character-class
    runs; a run is always followed by a literal outside its class or by
    the end of the pattern, so the longest run is the only one a
    backtracking matcher can succeed with. *)

Notation "x <- e ;; k" :=
  (match e with Some x => k | None => None end)
  (at level 61, e at next level, right associativity).

(** The rest of [s] after the literal [p], when [s] begins with it. *)
Fixpoint literal (p s : text) : option text :=
  match p, s with
  | [], _ => Some s
  | _ :: _, [] => None
  | a :: p', b :: s' => if Ascii.eqb a b then literal p' s' else None
  end.

(** The longest prefix of [s] within the class [f], and what follows. *)
Fixpoint span (f : ascii -> bool) (s : text) : text * text :=
  match s with
  | [] => ([], [])
  | c :: s' =>
      if f c then let (a, b) := span f s' in (c :: a, b) else ([], s)
  end.

(** A run [cls+]: at least one character. *)
Definition plus (f : ascii -> bool) (s : text) : option (text * text) :=
  match span f s with
  | ([], _) => None
  | (run, rest) => Some (run, rest)
  end.

(** [[^|]] *)
Definition not_bar (c : ascii) : bool := negb (Ascii.eqb c "|").

(** [[A-Z]] *)
Definition is_AZ (c : ascii) : bool :=
  let n := nat_of_ascii c in (65 <=? n) && (n <=? 90).

(** [[^|\]]] *)
Definition not_bar_bracket (c : ascii) : bool :=
  negb (Ascii.eqb c "|" || Ascii.eqb c "]").

Definition code_link_open : text := "[[Vehicle registration plates of ".

(** [\[\[Vehicle registration plates of [^|]+\|([A-Z]+)\]\]] anchored at
    the head of [s]; the result is group 1. *)
Definition match_code_at (s : text) : option text :=
  r1 <- literal code_link_open s ;;
  pr <- plus not_bar r1 ;;
  r3 <- literal "|" (snd pr) ;;
  cr <- plus is_AZ r3 ;;
  _ <- literal "]]" (snd cr) ;;
  Some (fst cr).

(** [re.search] with that pattern: the match at the leftmost position
    that has one; [group(1)] of it. *)
Fixpoint search_code (s : text) : option text :=
  match match_code_at s with
  | Some code => Some code
  | None => match s with
            | [] => None
            | _ :: s' => search_code s'
            end
  end.

(** [\[\[(?:File|Image):([^|\]]+)] anchored at the head of [s]: group 1
    and the text after the match. *)
Definition match_file_at (s : text) : option (text * text) :=
  r0 <- literal "[[" s ;;
  r1 <- match literal "File" r0 with
        | Some r => Some r
        | None => literal "Image" r0
        end ;;
  r2 <- literal ":" r1 ;;
  plus not_bar_bracket r2.

(** [re.findall] with that pattern: the matches are taken left to right
    and do not overlap, so after a match the scan resumes at its end;
    [skip] counts the characters of the current match still to pass. *)
Fixpoint findall_files_from (skip : nat) (s : text) : list text :=
  match s with
  | [] => []
  | _ :: s' =>
      match skip with
      | S k => findall_files_from k s'
      | O =>
          match match_file_at s with
          | Some (name, rest) =>
              name :: findall_files_from (length s' - length rest) s'
          | None => findall_files_from 0 s'
          end
      end
  end.

Definition findall_files (s : text) : list text := findall_files_from 0 s.

(** [re.split(r"\n\|-", s)]: the pieces between the occurrences of the
    separator, taken left to right without overlap; [cur] holds the
    piece being read, reversed. *)
Definition row_separator : text := LF :: "|-".

Fixpoint split_rows_from (skip : nat) (cur : text) (s : text) : list text :=
  match s with
  | [] => [rev cur]
  | c :: s' =>
      match skip with
      | S k => split_rows_from k cur s'
      | O =>
          if startswith s row_separator
          then rev cur :: split_rows_from (length row_separator - 1) [] s'
          else split_rows_from 0 (c :: cur) s'
      end
  end.

Definition split_rows (s : text) : list text := split_rows_from 0 [] s.

(* ------------------------------------------------------------------ *)
(** ** Lookup tables *)

(** A dict literal with string keys and values, as the list of its items
    in source order; the keys of both tables are distinct (see
    [WIKI_CODE_TO_ISO_keys] and [TERRITORY_NAMES_keys]). *)
Definition dict := list (text * text).

Definition items (l : list (string * string)) : dict :=
  map (fun kv => (txt (fst kv), txt (snd kv))) l.

(** [d.get(key, default)] *)
Fixpoint get (d : dict) (key default : text) : text :=
  match d with
  | [] => default
  | (k, v) :: d' => if text_eqb k key then v else get d' key default
  end.

Definition WIKI_CODE_TO_ISO : dict := items [
  ("A", "AT"); ("B", "BE"); ("BIH", "BA"); ("BG", "BG"); ("HR", "HR");
  ("CY", "CY"); ("CZ", "CZ"); ("DK", "DK"); ("EST", "EE"); ("FIN", "FI");
  ("F", "FR"); ("D", "DE"); ("GR", "GR"); ("H", "HU"); ("IS", "IS");
  ("IRL", "IE"); ("I", "IT"); ("LV", "LV"); ("FL", "LI"); ("LT", "LT");
  ("L", "LU"); ("M", "MT"); ("MC", "MC"); ("MNE", "ME"); ("NL", "NL");
  ("NMK", "MK"); ("N", "NO"); ("PL", "PL"); ("P", "PT"); ("RO", "RO");
  ("RSM", "SM"); ("SRB", "RS"); ("SK", "SK"); ("SLO", "SI"); ("E", "ES");
  ("S", "SE"); ("CH", "CH"); ("UA", "UA"); ("UK", "GB"); ("V", "VA");
  ("AND", "AD"); ("AM", "AM"); ("AZ", "AZ"); ("GE", "GE"); ("RUS", "RU");
  ("TR", "TR");
  (* Dependent territories *)
  ("AX", "AX"); ("GBA", "GBA"); ("FO", "FO"); ("GBZ", "GBZ");
  ("GBG", "GBG"); ("GBM", "GBM"); ("GBJ", "GBJ");
  (* Disputed territories *)
  ("ABH", "ABH"); ("RKS", "XK"); ("TRNC", "TRNC"); ("RSO", "RSO");
  ("PMR", "PMR")
]%string.

Definition TERRITORY_NAMES : dict := items [
  ("AL", "Albania"); ("AD", "Andorra"); ("AT", "Austria"); ("BY", "Belarus");
  ("BE", "Belgium"); ("BA", "Bosnia and Herzegovina"); ("BG", "Bulgaria");
  ("HR", "Croatia"); ("CY", "Cyprus"); ("CZ", "Czech Republic");
  ("DK", "Denmark");
  ("EE", "Estonia"); ("FI", "Finland"); ("FR", "France"); ("DE", "Germany");
  ("GR", "Greece"); ("HU", "Hungary"); ("IS", "Iceland"); ("IE", "Ireland");
  ("IT", "Italy"); ("LV", "Latvia"); ("LI", "Liechtenstein");
  ("LT", "Lithuania");
  ("LU", "Luxembourg"); ("MT", "Malta"); ("MD", "Moldova"); ("MC", "Monaco");
  ("ME", "Montenegro"); ("NL", "Netherlands"); ("MK", "North Macedonia");
  ("NO", "Norway"); ("PL", "Poland"); ("PT", "Portugal"); ("RO", "Romania");
  ("SM", "San Marino"); ("RS", "Serbia"); ("SK", "Slovakia");
  ("SI", "Slovenia");
  ("ES", "Spain"); ("SE", "Sweden"); ("CH", "Switzerland"); ("UA", "Ukraine");
  ("GB", "United Kingdom"); ("VA", "Vatican City");
  ("AM", "Armenia"); ("AZ", "Azerbaijan"); ("GE", "Georgia");
  ("RU", "Russia");
  ("TR", "Turkey");
  ("AX", "Aland Islands"); ("GBA", "Alderney"); ("FO", "Faroe Islands");
  ("GBZ", "Gibraltar"); ("GBG", "Guernsey"); ("GBM", "Isle of Man");
  ("GBJ", "Jersey");
  ("ABH", "Abkhazia"); ("XK", "Kosovo"); ("TRNC", "Northern Cyprus");
  ("RSO", "South Ossetia"); ("PMR", "Transnistria")
]%string.

(* ------------------------------------------------------------------ *)
(** ** The row classifier *)

(** The dict returned by [_parse_table_row]. *)
Record entry := mk_entry {
  wiki_code : text;
  iso : text;
  name : text;
  image_file : text;
  section : text
}.

Definition strip_patterns : list text := map txt [
  "euroband"; "eurobamd";
  "-band."; "band.png"; "band.svg";
  "section-with"; "section_with"; "EU-section";
  "Non-EU-section"; "Identifier"; "Number Plate Band";
  "Blank Rear Identifier"
]%string.

(** [any(p.lower() in filename_clean.lower() for p in strip_patterns)] *)
Definition is_strip (filename_clean : text) : bool :=
  existsb (fun p => contains (lower filename_clean) (lower p)) strip_patterns.

(** The loop over [file_matches]: it leaves at the first name that is not
    a strip, with that name stripped of surrounding whitespace;
    [None] is the initial [example_image]. *)
Fixpoint pick_example (file_matches : list text) : option text :=
  match file_matches with
  | [] => None
  | filename :: more =>
      let filename_clean := strip filename in
      if negb (is_strip filename_clean) then Some filename_clean
      else pick_example more
  end.

(** The two lookups of the returned dict. *)
Definition canonical_iso (wiki_code : text) : text :=
  get WIKI_CODE_TO_ISO wiki_code wiki_code.

Definition canonical_name (wiki_code : text) : text :=
  get TERRITORY_NAMES (canonical_iso wiki_code) wiki_code.

Definition _parse_table_row (row_text section : text) : option entry :=
  match search_code row_text with
  | None => None
  | Some wiki_code =>
      match findall_files row_text with
      | [] => None
      | file_matches =>
          match pick_example file_matches with
          | None => None
          | Some [] => None  (* [not ""] holds as [not None] does *)
          | Some example_image =>
              Some {| wiki_code := wiki_code;
                      iso := canonical_iso wiki_code;
                      name := canonical_name wiki_code;
                      image_file := "File:" ++ example_image;
                      section := section |}
          end
      end
  end.

(* ------------------------------------------------------------------ *)
(** ** The table extractor *)

Definition sections : list (text * text) := items [
  ("countries", "=== Countries ===");
  ("transcontinental", "=== Transcontinental countries ===");
  ("dependent", "=== Dependent territories ===");
  ("disputed", "=== Disputed territories ===")
]%string.

(** The line printed when a heading is missing. *)
Definition warning (header : text) : text :=
  "  Warning: section '" ++ header ++ "' not found in wikitext".

(** The state the loops of [parse_plate_tables] work on: the list
    [entries] and the lines printed so far. *)
Definition state := (list entry * list text)%type.

(** The inner loop [for row in rows[1:]]. *)
Definition parse_rows (section_name : text) (rows : list text)
    (entries : list entry) : list entry :=
  fold_left
    (fun entries row =>
       match _parse_table_row row section_name with
       | Some e => entries ++ [e]
       | None => entries
       end)
    rows entries.

(** One turn of the outer loop. *)
Definition parse_section (wikitext : text) (st : state)
    (sec : text * text) : state :=
  let (section_name, header) := sec in
  let (entries, out) := st in
  let start := find wikitext header 0 in
  if (start =? -1)%Z then (entries, out ++ [warning header])
  else
    let table_start := find wikitext "{|" start in
    let table_end := find wikitext "|}" table_start in
    if (table_start =? -1)%Z || (table_end =? -1)%Z then (entries, out)
    else
      let table_text := slice wikitext table_start table_end in
      let rows := split_rows table_text in
      (parse_rows section_name (skipn 1 rows) entries, out).

(** [parse_plate_tables] with the standard output made explicit: [out]
    holds the lines printed before the call, and the result pairs the
    returned list with the lines printed up to the return. *)
Definition parse_plate_tables (wikitext : text) (out : list text) : state :=
  fold_left (parse_section wikitext) sections ([], out).

(* ------------------------------------------------------------------ *)
(** ** Literals and character-class runs *)

(** Closed goals are settled by running the functions. *)
Ltac evaluate := vm_compute; reflexivity.

Lemma literal_Some (p s r : text) : literal p s = Some r <-> s = p ++ r.
Proof.
  revert s; induction p as [|a p IH]; intros s; simpl.
  - split; congruence.
  - destruct s as [|b s].
    + split; discriminate.
    + simpl. destruct (Ascii.eqb a b) eqn:E.
      * apply Ascii.eqb_eq in E as ->. rewrite IH. split; congruence.
      * apply Ascii.eqb_neq in E. split; [discriminate | congruence].
Qed.

Lemma literal_app (p r : text) : literal p (p ++ r) = Some r.
Proof. now apply literal_Some. Qed.

Lemma startswith_true (s p : text) :
  startswith s p = true <-> exists r, s = p ++ r.
Proof.
  revert s; induction p as [|a p IH]; intros s; simpl.
  - destruct s; (split; [intros _; eexists; reflexivity | reflexivity]).
  - destruct s as [|b s].
    + split; [discriminate | intros [r Hr]; discriminate].
    + simpl. destruct (Ascii.eqb a b) eqn:E; simpl.
      * apply Ascii.eqb_eq in E as ->. rewrite IH.
        split; intros [r Hr]; exists r; congruence.
      * apply Ascii.eqb_neq in E.
        split; [discriminate | intros [r Hr]; congruence].
Qed.

Section Runs.

Variable f : ascii -> bool.

Lemma span_app (s : text) :
  s = fst (span f s) ++ snd (span f s).
Proof.
  induction s as [|c s IH]; simpl; [reflexivity|].
  destruct (f c); [|reflexivity].
  destruct (span f s) as [a b]; simpl in *. now f_equal.
Qed.

Lemma span_forallb (s : text) :
  forallb f (fst (span f s)) = true.
Proof.
  induction s as [|c s IH]; simpl; [reflexivity|].
  destruct (f c) eqn:Hc; [|reflexivity].
  destruct (span f s) as [a b]; simpl in *. now rewrite Hc.
Qed.

(** What follows a run is empty or begins outside the class. *)
Definition stops (rest : text) : Prop :=
  match rest with
  | [] => True
  | c :: _ => f c = false
  end.

Lemma span_stops (s : text) : stops (snd (span f s)).
Proof.
  induction s as [|c s IH]; simpl; [exact I|].
  destruct (f c) eqn:Hc; [|exact Hc].
  now destruct (span f s) as [a b].
Qed.

Lemma span_unique (a b : text) :
  forallb f a = true -> stops b -> span f (a ++ b) = (a, b).
Proof.
  intros Ha Hb. induction a as [|c a IH]; simpl in *.
  - destruct b as [|c b]; [reflexivity|]. simpl in *. now rewrite Hb.
  - apply andb_true_iff in Ha as [Hc Ha]. now rewrite Hc, IH.
Qed.

Lemma plus_Some (s run rest : text) :
  plus f s = Some (run, rest) <->
  s = run ++ rest /\ run <> [] /\ forallb f run = true /\ stops rest.
Proof.
  unfold plus. split.
  - pose proof (span_app s) as Happ.
    pose proof (span_forallb s) as Hall.
    pose proof (span_stops s) as Hst.
    destruct (span f s) as [a b]; simpl in *.
    destruct a as [|c a]; [discriminate|].
    intros [= <- <-]. repeat split; auto. discriminate.
  - intros (-> & Hne & Hall & Hst).
    rewrite (span_unique run rest Hall Hst).
    destruct run; [contradiction | reflexivity].
Qed.

End Runs.

(* ------------------------------------------------------------------ *)
(** ** The code link, declaratively *)

(** The text of a link to the page of [place] that shows [label]. *)
Definition code_link (place label : text) : text :=
  code_link_open ++ place ++ "|" ++ label ++ "]]".

(** [[^|]+] *)
Definition place_ok (place : text) : Prop :=
  place <> [] /\ forallb not_bar place = true.

(** [[A-Z]+]: one or more uppercase ASCII letters. *)
Definition label_ok (label : text) : Prop :=
  label <> [] /\ forallb is_AZ label = true.

(** The pattern of [re.search] matches [row] at position [i], with
    [label] as group 1. *)
Definition code_link_at (row : text) (i : nat) (label : text) : Prop :=
  exists pre place post,
    row = pre ++ code_link place label ++ post /\
    length pre = i /\ place_ok place /\ label_ok label.

(** [label] is the label of the leftmost code link of [row]. *)
Definition leftmost_code (row label : text) : Prop :=
  exists i,
    code_link_at row i label /\
    forall j label', code_link_at row j label' -> i <= j.

Lemma match_code_at_Some (s label : text) :
  match_code_at s = Some label <->
  exists place rest,
    s = code_link place label ++ rest /\ place_ok place /\ label_ok label.
Proof.
  unfold match_code_at, code_link, place_ok, label_ok. split.
  - destruct (literal code_link_open s) as [r1|] eqn:H1; [|discriminate].
    destruct (plus not_bar r1) as [[place r2]|] eqn:H2; [|discriminate].
    simpl snd.
    destruct (literal "|" r2) as [r3|] eqn:H3; [|discriminate].
    destruct (plus is_AZ r3) as [[code r4]|] eqn:H4; [|discriminate].
    simpl snd; simpl fst.
    destruct (literal "]]" r4) as [r5|] eqn:H5; [|discriminate].
    intros [= <-].
    apply literal_Some in H1, H3, H5.
    apply plus_Some in H2 as (E2 & N2 & A2 & _).
    apply plus_Some in H4 as (E4 & N4 & A4 & _).
    exists place, r5. subst. repeat split; auto.
    now rewrite <- !app_assoc.
  - intros (place & rest & -> & [Np Ap] & [Nl Al]).
    rewrite <- !app_assoc, literal_app.
    assert (Hp : plus not_bar (place ++ "|" ++ label ++ "]]" ++ rest)
                 = Some (place, "|" ++ label ++ "]]" ++ rest)).
    { apply plus_Some. repeat split; auto. }
    rewrite Hp. cbv beta iota delta [snd fst]. rewrite literal_app.
    assert (Hl : plus is_AZ (label ++ "]]" ++ rest)
                 = Some (label, "]]" ++ rest)).
    { apply plus_Some. repeat split; auto. }
    rewrite Hl. cbv beta iota delta [snd fst]. now rewrite literal_app.
Qed.

Lemma code_link_at_iff (row : text) (i : nat) (label : text) :
  code_link_at row i label <->
  i <= length row /\ match_code_at (skipn i row) = Some label.
Proof.
  unfold code_link_at. rewrite match_code_at_Some. split.
  - intros (pre & place & post & -> & <- & Hp & Hl). split.
    + rewrite length_app. lia.
    + exists place, post. rewrite skipn_app, skipn_all, Nat.sub_diag. auto.
  - intros (Hi & place & post & E & Hp & Hl).
    exists (firstn i row), place, post. rewrite <- E, firstn_skipn.
    split; [reflexivity|]. split; [apply firstn_length_le, Hi | auto].
Qed.

Lemma search_code_Some (row label : text) :
  search_code row = Some label <->
  exists i,
    i <= length row /\
    match_code_at (skipn i row) = Some label /\
    forall j, j < i -> match_code_at (skipn j row) = None.
Proof.
  induction row as [|c row IH].
  - split; [discriminate|].
    intros (i & Hi & Hm & _). destruct i; simpl in *; [discriminate | lia].
  - simpl search_code.
    destruct (match_code_at (c :: row)) as [x|] eqn:E.
    + split.
      * intros [= <-]. exists 0. repeat split; auto; [simpl; lia|].
        intros j Hj; lia.
      * intros (i & Hi & Hm & Hlt). destruct i as [|i].
        -- simpl in Hm. congruence.
        -- specialize (Hlt 0 ltac:(lia)). simpl in Hlt. congruence.
    + rewrite IH. split.
      * intros (i & Hi & Hm & Hlt). exists (S i).
        repeat split; auto; [simpl; lia|].
        intros [|j] Hj; [exact E | simpl; apply Hlt; lia].
      * intros (i & Hi & Hm & Hlt). destruct i as [|i].
        -- simpl in Hm. congruence.
        -- exists i. repeat split; auto; [simpl in Hi; lia|].
           intros j Hj. apply (Hlt (S j)). lia.
Qed.

Lemma search_code_None (row : text) :
  search_code row = None <->
  forall i, i <= length row -> match_code_at (skipn i row) = None.
Proof.
  induction row as [|c row IH]; simpl.
  - split; [|reflexivity]. intros _ i Hi.
    destruct i; simpl in *; [reflexivity | lia].
  - destruct (match_code_at (c :: row)) eqn:E.
    + split; [discriminate|]. intros H.
      specialize (H 0 ltac:(lia)). simpl in H. congruence.
    + rewrite IH. split.
      * intros H [|i] Hi; [exact E | simpl; apply H; lia].
      * intros H i Hi. apply (H (S i)). lia.
Qed.

Lemma leftmost_code_iff (row label : text) :
  search_code row = Some label <-> leftmost_code row label.
Proof.
  rewrite search_code_Some. unfold leftmost_code. split.
  - intros (i & Hi & Hm & Hlt). exists i. split.
    + apply code_link_at_iff; auto.
    + intros j l' Hj. apply code_link_at_iff in Hj as [_ Hj].
      destruct (Nat.le_gt_cases i j) as [|Hlt']; [assumption|].
      rewrite (Hlt j Hlt') in Hj. discriminate.
  - intros (i & Hat & Hmin). apply code_link_at_iff in Hat as [Hi Hm].
    exists i. repeat split; auto. intros j Hj.
    destruct (match_code_at (skipn j row)) as [l'|] eqn:E; [|reflexivity].
    assert (Hj' : code_link_at row j l') by (apply code_link_at_iff; split; [lia | exact E]).
    apply Hmin in Hj'. lia.
Qed.

Lemma no_code_link_iff (row : text) :
  search_code row = None <-> forall i label, ~ code_link_at row i label.
Proof.
  rewrite search_code_None. split.
  - intros H i label Hat. apply code_link_at_iff in Hat as [Hi Hm].
    rewrite (H i Hi) in Hm. discriminate.
  - intros H i Hi.
    destruct (match_code_at (skipn i row)) as [l|] eqn:E; [|reflexivity].
    exfalso. apply (H i l). apply code_link_at_iff. auto.
Qed.

(* ------------------------------------------------------------------ *)
(** ** File references *)

(** The text of an embedded reference up to the end of the name. *)
Definition file_ref (ns name : text) : text := "[[" ++ ns ++ ":" ++ name.

Definition media_namespace (ns : text) : Prop := ns = "File" \/ ns = "Image".

Lemma match_file_at_Some (s name rest : text) :
  match_file_at s = Some (name, rest) <->
  exists ns,
    media_namespace ns /\ s = file_ref ns name ++ rest /\
    name <> [] /\ forallb not_bar_bracket name = true /\
    stops not_bar_bracket rest.
Proof.
  unfold match_file_at, file_ref, media_namespace. split.
  - destruct (literal "[[" s) as [r0|] eqn:H0; [|discriminate].
    apply literal_Some in H0. subst s.
    destruct (literal "File" r0) as [r1|] eqn:H1.
    + apply literal_Some in H1. subst r0.
      destruct (literal ":" r1) as [r2|] eqn:H2; [|discriminate].
      apply literal_Some in H2. subst r1.
      intros H. apply plus_Some in H as (-> & Hn & Ha & Hs).
      exists "File". rewrite <- !app_assoc. auto 6.
    + destruct (literal "Image" r0) as [r1|] eqn:H1'; [|discriminate].
      apply literal_Some in H1'. subst r0.
      destruct (literal ":" r1) as [r2|] eqn:H2; [|discriminate].
      apply literal_Some in H2. subst r1.
      intros H. apply plus_Some in H as (-> & Hn & Ha & Hs).
      exists "Image". rewrite <- !app_assoc. auto 6.
  - intros (ns & Hns & -> & Hn & Ha & Hs).
    assert (Hp : plus not_bar_bracket (name ++ rest) = Some (name, rest))
      by (apply plus_Some; auto).
    destruct Hns as [-> | ->]; exact Hp.
Qed.

(** A match is never empty: the scan always moves on. *)
Lemma match_file_at_consumes (s name rest : text) :
  match_file_at s = Some (name, rest) ->
  exists c m, s = c :: m ++ rest.
Proof.
  intros H. apply match_file_at_Some in H as (ns & _ & -> & _).
  exists "["%char, ("[" ++ ns ++ ":" ++ name).
  unfold file_ref. simpl. now rewrite <- !app_assoc.
Qed.

Lemma findall_files_from_skipn (k : nat) (s : text) :
  findall_files_from k s = findall_files (skipn k s).
Proof.
  revert k; induction s as [|c s IH]; intros [|k]; try reflexivity.
  simpl. apply IH.
Qed.

(** After a match the scan resumes where the match ends. *)
Lemma findall_files_match (s name rest : text) :
  match_file_at s = Some (name, rest) ->
  findall_files s = name :: findall_files rest.
Proof.
  intros H. destruct (match_file_at_consumes _ _ _ H) as (c & m & E).
  subst s. unfold findall_files at 1. simpl findall_files_from.
  rewrite H, findall_files_from_skipn. do 2 f_equal.
  rewrite length_app, Nat.add_sub, skipn_app, skipn_all, Nat.sub_diag.
  reflexivity.
Qed.

(** Without a match the scan moves one character on. *)
Lemma findall_files_pass (c : ascii) (s : text) :
  match_file_at (c :: s) = None ->
  findall_files (c :: s) = findall_files s.
Proof.
  intros H. unfold findall_files at 1. simpl findall_files_from.
  now rewrite H.
Qed.

(** The references of a text in document order, as a relation: the
    reading of [re.findall] that [findall_files] computes. *)
Inductive file_refs : text -> list text -> Prop :=
| refs_end : file_refs [] []
| refs_match s name rest l :
    match_file_at s = Some (name, rest) ->
    file_refs rest l ->
    file_refs s (name :: l)
| refs_pass c s l :
    match_file_at (c :: s) = None ->
    file_refs s l ->
    file_refs (c :: s) l.

Lemma file_refs_findall (s : text) (l : list text) :
  file_refs s l -> findall_files s = l.
Proof.
  induction 1 as [|s name rest l Hm _ IH|c s l Hm _ IH].
  - reflexivity.
  - rewrite (findall_files_match _ _ _ Hm). now f_equal.
  - now rewrite (findall_files_pass _ _ Hm).
Qed.

Lemma findall_file_refs (s : text) : file_refs s (findall_files s).
Proof.
  remember (length s) as n eqn:Hn. revert s Hn.
  induction n as [n IH] using lt_wf_ind. intros s Hn.
  destruct s as [|c s]; [constructor|].
  destruct (match_file_at (c :: s)) as [[name rest]|] eqn:Hm.
  - rewrite (findall_files_match _ _ _ Hm).
    apply (refs_match _ _ _ _ Hm).
    destruct (match_file_at_consumes _ _ _ Hm) as (c' & m & E).
    apply (IH (length rest)); [|reflexivity].
    subst n. rewrite E. simpl. rewrite length_app. lia.
  - rewrite (findall_files_pass _ _ Hm). apply refs_pass; [exact Hm|].
    apply (IH (length s)); [subst n; simpl; lia | reflexivity].
Qed.

(** Every name found stands in the row behind [[[File:] or [[[Image:]. *)
Lemma findall_files_In (s raw : text) :
  In raw (findall_files s) ->
  exists pre ns post,
    s = pre ++ file_ref ns raw ++ post /\ media_namespace ns /\
    raw <> [] /\ forallb not_bar_bracket raw = true /\
    stops not_bar_bracket post.
Proof.
  pose proof (findall_file_refs s) as Hs.
  induction Hs as [|s name rest l Hm _ IH|c s l Hm _ IH]; intros Hin.
  - contradiction.
  - destruct Hin as [<- | Hin].
    + apply match_file_at_Some in Hm as (ns & Hns & -> & Hn & Ha & Hst).
      exists [], ns, rest. auto 6.
    + destruct (IH Hin) as (pre & ns & post & -> & Hrest).
      apply match_file_at_Some in Hm as (ns' & _ & -> & _).
      exists (file_ref ns' name ++ pre), ns, post.
      rewrite <- !app_assoc. auto.
  - destruct (IH Hin) as (pre & ns & post & -> & Hrest).
    exists (c :: pre), ns, post. auto.
Qed.

(* ------------------------------------------------------------------ *)
(** ** [str.strip] *)

Lemma lstrip_span (s : text) : lstrip s = snd (span is_space s).
Proof.
  induction s as [|c s IH]; simpl; [reflexivity|].
  destruct (is_space c); [|reflexivity].
  rewrite IH. now destruct (span is_space s).
Qed.

Lemma lstrip_spec (s : text) :
  exists ws,
    s = ws ++ lstrip s /\ forallb is_space ws = true /\
    stops is_space (lstrip s).
Proof.
  exists (fst (span is_space s)). rewrite lstrip_span.
  split; [apply span_app|]. split; [apply span_forallb | apply span_stops].
Qed.

Lemma forallb_rev (f : ascii -> bool) (s : text) :
  forallb f (rev s) = forallb f s.
Proof.
  induction s as [|c s IH]; simpl; [reflexivity|].
  rewrite forallb_app, IH. simpl. rewrite andb_true_r. apply andb_comm.
Qed.

Lemma rstrip_spec (s : text) :
  exists ws,
    s = rstrip s ++ ws /\ forallb is_space ws = true /\
    stops is_space (rev (rstrip s)).
Proof.
  unfold rstrip. destruct (lstrip_spec (rev s)) as (ws & E & Hws & Hst).
  exists (rev ws). rewrite rev_involutive, forallb_rev.
  repeat split; auto.
  rewrite <- rev_app_distr, <- E. symmetry. apply rev_involutive.
Qed.

Lemma stops_app_l (f : ascii -> bool) (a b : text) :
  stops f (a ++ b) -> stops f a.
Proof. destruct a; simpl; auto. Qed.

(** [strip] removes a run of whitespace at each end, and all of it. *)
Lemma strip_spec (s : text) :
  exists l r,
    s = l ++ strip s ++ r /\
    forallb is_space l = true /\ forallb is_space r = true /\
    stops is_space (strip s) /\ stops is_space (rev (strip s)).
Proof.
  unfold strip.
  destruct (lstrip_spec s) as (l & El & Hl & Hstl).
  destruct (rstrip_spec (lstrip s)) as (r & Er & Hr & Hstr).
  exists l, r. repeat split; auto.
  - now rewrite <- Er.
  - rewrite Er in Hstl. eapply stops_app_l, Hstl.
Qed.

Lemma strip_forallb (f : ascii -> bool) (s : text) :
  forallb f s = true -> forallb f (strip s) = true.
Proof.
  destruct (strip_spec s) as (l & r & E & _). intros H.
  rewrite E, !forallb_app in H.
  apply andb_true_iff in H as [_ H]. now apply andb_true_iff in H as [H _].
Qed.

(* ------------------------------------------------------------------ *)
(** ** The choice among the candidates *)

Lemma pick_example_first (l1 : list text) (raw : text) (l2 : list text) :
  (forall f, In f l1 -> is_strip (strip f) = true) ->
  is_strip (strip raw) = false ->
  pick_example (l1 ++ raw :: l2) = Some (strip raw).
Proof.
  intros H1 Hraw. induction l1 as [|f l1 IH]; simpl.
  - now rewrite Hraw.
  - rewrite (H1 f (or_introl eq_refl)). simpl. apply IH.
    intros g Hg. apply H1. now right.
Qed.

Lemma pick_example_all_strips (l : list text) :
  (forall f, In f l -> is_strip (strip f) = true) ->
  pick_example l = None.
Proof.
  intros H. induction l as [|f l IH]; simpl; [reflexivity|].
  rewrite (H f (or_introl eq_refl)). simpl. apply IH.
  intros g Hg. apply H. now right.
Qed.

Lemma pick_example_Some (l : list text) (x : text) :
  pick_example l = Some x ->
  exists l1 raw l2,
    l = l1 ++ raw :: l2 /\ x = strip raw /\ is_strip x = false /\
    forall f, In f l1 -> is_strip (strip f) = true.
Proof.
  induction l as [|f l IH]; simpl; [discriminate|].
  destruct (is_strip (strip f)) eqn:Hf; simpl.
  - intros H. destruct (IH H) as (l1 & raw & l2 & -> & -> & Hx & Hl1).
    exists (f :: l1), raw, l2. repeat split; auto.
    intros g [<- | Hg]; auto.
  - intros [= <-]. exists [], f, l. repeat split; auto.
Qed.

(* ------------------------------------------------------------------ *)
(** ** The blocklist test and surrounding whitespace *)

Lemma contains_true (s p : text) :
  contains s p = true <-> exists a b, s = a ++ p ++ b.
Proof.
  induction s as [|c s IH].
  - change (contains [] p) with (startswith [] p || false).
    rewrite orb_false_r, startswith_true. split.
    + intros [r Hr]. now exists [], r.
    + intros (a & b & E). destruct a; [|discriminate]. now exists b.
  - change (contains (c :: s) p)
      with (startswith (c :: s) p || contains s p).
    rewrite orb_true_iff, startswith_true, IH. split.
    + intros [[r Hr] | (a & b & ->)].
      * now exists [], r.
      * now exists (c :: a), b.
    + intros (a & b & E). destruct a as [|c' a].
      * left. now exists b.
      * right. injection E as -> ->. now exists a, b.
Qed.

(** A text that begins outside the class is found behind a run of the
    class only where the run has ended. *)
Lemma infix_past_run (f : ascii -> bool) (ws m a p b : text) (c : ascii) :
  forallb f ws = true -> f c = false ->
  ws ++ m = a ++ (c :: p) ++ b ->
  exists a', m = a' ++ (c :: p) ++ b.
Proof.
  intros Hws Hc. revert a. induction ws as [|w ws IH]; intros a E.
  - now exists a.
  - simpl in Hws. apply andb_true_iff in Hws as [Hw Hws].
    destruct a as [|x a]; simpl in E; injection E as -> E.
    + congruence.
    + now apply (IH Hws a).
Qed.

(** What the blocklist test needs of a pattern: in lower case it begins
    and ends outside whitespace. *)
Definition solid (p : text) : bool :=
  match lower p, rev (lower p) with
  | c :: _, d :: _ => negb (is_space c) && negb (is_space d)
  | _, _ => false
  end.

Lemma lower_char_space (c : ascii) : is_space (lower_char c) = is_space c.
Proof. destruct c as [[] [] [] [] [] [] [] []]; reflexivity. Qed.

Lemma lower_spaces (ws : text) :
  forallb is_space (lower ws) = forallb is_space ws.
Proof.
  induction ws as [|c ws IH]; simpl; [reflexivity|].
  now rewrite lower_char_space, IH.
Qed.

Lemma contains_trimmed (l m r q : text) :
  forallb is_space l = true -> forallb is_space r = true ->
  (exists c q', q = c :: q' /\ is_space c = false) ->
  (exists d q', rev q = d :: q' /\ is_space d = false) ->
  contains (l ++ m ++ r) q = contains m q.
Proof.
  intros Hl Hr (c & q' & -> & Hc) (d & q'' & Hrev & Hd).
  apply eq_true_iff_eq. rewrite !contains_true. split.
  - intros (a & b & E).
    destruct (infix_past_run is_space l (m ++ r) a q' b c Hl Hc E)
      as (a' & E').
    assert (E2 : rev r ++ rev m = rev b ++ (d :: q'') ++ rev a').
    { rewrite <- Hrev, <- !rev_app_distr. f_equal.
      now rewrite <- app_assoc. }
    rewrite <- forallb_rev in Hr.
    destruct (infix_past_run is_space (rev r) (rev m) (rev b) q'' (rev a') d
                Hr Hd E2) as (b' & E3).
    exists a', (rev b'). apply (f_equal (@rev ascii)) in E3.
    rewrite rev_involutive in E3. rewrite E3.
    rewrite !rev_app_distr, rev_involutive, <- Hrev, rev_involutive.
    now rewrite <- app_assoc.
  - intros (a & b & ->). exists (l ++ a), (b ++ r).
    now rewrite <- !app_assoc.
Qed.

Lemma solid_spec (p : text) :
  solid p = true ->
  (exists c q', lower p = c :: q' /\ is_space c = false) /\
  (exists d q', rev (lower p) = d :: q' /\ is_space d = false).
Proof.
  unfold solid. destruct (lower p) as [|c q]; [discriminate|].
  destruct (rev (c :: q)) as [|d q']; [discriminate|].
  intros H. apply andb_true_iff in H as [Hc Hd].
  apply negb_true_iff in Hc, Hd. split; eauto.
Qed.

Lemma strip_patterns_solid : forallb solid strip_patterns = true.
Proof. evaluate. Qed.

(** The test gives the same answer on a name and on the name stripped:
    whitespace around a name plays no part in the blocklist. *)
Lemma is_strip_strip (filename : text) :
  is_strip (strip filename) = is_strip filename.
Proof.
  unfold is_strip. pose proof strip_patterns_solid as Hs.
  destruct (strip_spec filename) as (l & r & E & Hl & Hr & _).
  induction strip_patterns as [|p ps IH]; simpl; [reflexivity|].
  simpl in Hs. apply andb_true_iff in Hs as [Hp Hps].
  rewrite (IH Hps). f_equal.
  destruct (solid_spec p Hp) as [Hhd Hlast].
  rewrite E at 2. unfold lower at 3. rewrite !map_app.
  symmetry. apply contains_trimmed; auto; fold (lower l); fold (lower r);
    now rewrite lower_spaces.
Qed.

(* ------------------------------------------------------------------ *)
(** ** The row classifier, case by case *)

Lemma parse_table_row_Some (row sec : text) (e : entry) :
  _parse_table_row row sec = Some e <->
  exists code x,
    search_code row = Some code /\
    pick_example (findall_files row) = Some x /\ x <> [] /\
    e = mk_entry code (canonical_iso code) (canonical_name code)
          ("File:" ++ x) sec.
Proof.
  unfold _parse_table_row. destruct (search_code row) as [code|].
  - destruct (findall_files row) as [|f fs].
    + split; [discriminate|]. intros (c & x & _ & Hp & _). discriminate.
    + destruct (pick_example (f :: fs)) as [[|c x]|].
      * split; [discriminate|].
        intros (c' & x' & _ & [= <-] & Hx & _). contradiction.
      * split.
        -- intros [= <-]. exists code, (c :: x).
           repeat split; auto. discriminate.
        -- intros (c' & x' & [= <-] & [= <-] & _ & ->). reflexivity.
      * split; [discriminate|]. intros (c' & x' & _ & Hp & _). discriminate.
  - split; [discriminate|]. intros (c' & x' & Hp & _). discriminate.
Qed.

Lemma parse_table_row_None (row sec : text) :
  _parse_table_row row sec = None <->
  search_code row = None \/
  pick_example (findall_files row) = None \/
  pick_example (findall_files row) = Some [].
Proof.
  unfold _parse_table_row. destruct (search_code row) as [code|].
  - destruct (findall_files row) as [|f fs].
    + simpl. split; auto.
    + destruct (pick_example (f :: fs)) as [[|c x]|].
      * split; auto.
      * split; [discriminate|]. intros [H|[H|H]]; discriminate.
      * split; auto.
  - split; auto.
Qed.

(* ------------------------------------------------------------------ *)
(** ** Properties of the row classifier *)

(** The rows used as concrete cases. *)
Definition germany_link : text :=
  "[[Vehicle registration plates of Germany|D]]".
Definition euroband_ref : text := "[[File:Germany_euroband.png]]".
Definition plate_ref : text := "[[File:Germany_license_plate.jpg]]".

Definition germany_row : text :=
  LF :: "| [[Germany]] || " ++ germany_link ++ " || " ++ euroband_ref
  ++ " || " ++ plate_ref ++ " || ".

Definition foo_band_row : text :=
  "| " ++ germany_link ++ " || [[File:Foo-band.svg]]".

Definition blank_name_row : text :=
  germany_link ++ " || [[File: ]] || [[File:Plate.jpg]]".

Definition image_ns_row : text :=
  "| [[Vehicle registration plates of France|F]] || [[Image: France plate.jpg |200px]]".

Definition header_row : text :=
  "! Country !! Code !! Strip !! Example [[File:Plate.jpg]]".

Definition two_links_row : text :=
  "[[Vehicle registration plates of Austria|A]] [[Vehicle registration plates of Belgium|B]] [[File:Plate.jpg]]".

Definition bad_label_row (label : text) : text :=
  "| [[Vehicle registration plates of Germany|" ++ label
  ++ "]] || [[File:Plate.jpg]]".

(** C1 (as amended).  When a row has a code link, and among its file
    references, in document order, the first whose name no blocklist
    substring matches has a name that is not empty once stripped, the
    classifier returns the code of the leftmost link with [File:] and
    that stripped name.  Every entry the classifier returns carries the
    name of a reference of the row that the blocklist does not match. *)
Theorem first_surviving_reference :
  (forall (row sec code : text) (l1 : list text) (raw : text)
          (l2 : list text),
      leftmost_code row code ->
      findall_files row = l1 ++ raw :: l2 ->
      (forall f, In f l1 -> is_strip f = true) ->
      is_strip raw = false ->
      strip raw <> [] ->
      _parse_table_row row sec
      = Some {| wiki_code := code;
                iso := canonical_iso code;
                name := canonical_name code;
                image_file := "File:" ++ strip raw;
                section := sec |}) /\
  (forall (row sec : text) (e : entry),
      _parse_table_row row sec = Some e ->
      exists raw,
        In raw (findall_files row) /\
        image_file e = "File:" ++ strip raw /\
        is_strip raw = false).
Proof.
  split.
  - intros row sec code l1 raw l2 Hcode Hrefs Hl1 Hraw Hne.
    apply parse_table_row_Some. exists code, (strip raw).
    split; [now apply leftmost_code_iff|].
    split; [|auto].
    rewrite Hrefs. apply pick_example_first.
    + intros f Hf. rewrite is_strip_strip. auto.
    + now rewrite is_strip_strip.
  - intros row sec e He.
    apply parse_table_row_Some in He as (code & x & _ & Hpick & _ & ->).
    apply pick_example_Some in Hpick
      as (l1 & raw & l2 & Hrefs & -> & Hx & _).
    exists raw. rewrite Hrefs. split; [apply in_elt|].
    split; [reflexivity|]. now rewrite <- is_strip_strip.
Qed.

(** C1 at [germany_row]: code D, the euroband rejected, the plate image
    chosen. *)
Lemma first_surviving_reference_witness :
  leftmost_code germany_row "D" /\
  _parse_table_row germany_row "countries"
  = Some {| wiki_code := "D"; iso := canonical_iso "D";
            name := canonical_name "D";
            image_file := "File:" ++ strip "Germany_license_plate.jpg";
            section := "countries" |}.
Proof.
  assert (Hc : leftmost_code germany_row "D")
    by (apply leftmost_code_iff; evaluate).
  split; [exact Hc|].
  apply (proj1 first_surviving_reference germany_row "countries" "D"
           [txt "Germany_euroband.png"] "Germany_license_plate.jpg" []).
  - exact Hc.
  - evaluate.
  - intros f [<- | []]. evaluate.
  - evaluate.
  - vm_compute. discriminate.
Defined.

(** C1 as stated fails: in [blank_name_row] the code link is there and
    both references pass the blocklist, the first of them being the
    blank name; the classifier returns nothing, not code D with a
    reference. *)
Lemma blank_first_reference_drops_row :
  leftmost_code blank_name_row "D" /\
  findall_files blank_name_row = [txt " "; txt "Plate.jpg"] /\
  is_strip " " = false /\
  is_strip "Plate.jpg" = false /\
  _parse_table_row blank_name_row "countries" = None.
Proof.
  split; [apply leftmost_code_iff; evaluate|].
  repeat split; evaluate.
Qed.

(** C2.  A row in which the blocklist matches the name of every file
    reference gives no entry; so does the row whose one reference is
    [[[File:Foo-band.svg]]] beside a valid code link. *)
Theorem all_strips_no_entry :
  (forall row sec : text,
      (forall f, In f (findall_files row) -> is_strip f = true) ->
      _parse_table_row row sec = None) /\
  (leftmost_code foo_band_row "D" /\
   findall_files foo_band_row = [txt "Foo-band.svg"] /\
   forall sec, _parse_table_row foo_band_row sec = None).
Proof.
  split.
  - intros row sec H. apply parse_table_row_None. right. left.
    apply pick_example_all_strips. intros f Hf.
    rewrite is_strip_strip. auto.
  - split; [apply leftmost_code_iff; evaluate|].
    split; [evaluate|].
    intros sec. apply parse_table_row_None. right. left.
    evaluate.
Qed.

Lemma all_strips_no_entry_witness :
  (forall f, In f (findall_files foo_band_row) -> is_strip f = true) /\
  _parse_table_row foo_band_row "countries" = None.
Proof.
  assert (H : forall f, In f (findall_files foo_band_row) ->
                        is_strip f = true).
  { intros f Hf. vm_compute in Hf. destruct Hf as [<- | []].
    evaluate. }
  split; [exact H|].
  exact (proj1 all_strips_no_entry foo_band_row "countries" H).
Defined.

(** C3.  A row that holds the link
    [[[Vehicle registration plates of Germany|D]]] as its first code
    link, and whose file references are [[[File:Germany_euroband.png]]]
    followed by [[[File:Germany_license_plate.jpg]]], is classified as
    code D with the reference [File:Germany_license_plate.jpg]: the
    euroband is rejected and the plate is the first name left. *)
Theorem germany_row_classified (row sec pre post : text) :
  row = pre ++ germany_link ++ post ->
  (forall j label, code_link_at row j label -> length pre <= j) ->
  file_refs row [txt "Germany_euroband.png";
                 txt "Germany_license_plate.jpg"] ->
  is_strip "Germany_euroband.png" = true /\
  _parse_table_row row sec
  = Some {| wiki_code := "D"; iso := "DE"; name := "Germany";
            image_file := "File:Germany_license_plate.jpg";
            section := sec |}.
Proof.
  intros Hrow Hfirst Hrefs. split; [evaluate|].
  apply parse_table_row_Some.
  exists "D", "Germany_license_plate.jpg".
  split; [|split; [|split; [discriminate | reflexivity]]].
  - apply leftmost_code_iff. exists (length pre). split; [|exact Hfirst].
    exists pre, "Germany", post.
    split; [exact Hrow|]. split; [reflexivity|].
    split; (split; [discriminate | reflexivity]).
  - rewrite (file_refs_findall _ _ Hrefs). evaluate.
Qed.

Lemma germany_row_classified_witness :
  _parse_table_row germany_row "countries"
  = Some {| wiki_code := "D"; iso := "DE"; name := "Germany";
            image_file := "File:Germany_license_plate.jpg";
            section := "countries" |}.
Proof.
  apply (germany_row_classified germany_row "countries"
           (LF :: "| [[Germany]] || ")
           (" || " ++ euroband_ref ++ " || " ++ plate_ref ++ " || ")).
  - evaluate.
  - intros j label H. apply code_link_at_iff in H as [Hj Hm].
    destruct (Nat.le_gt_cases (length (LF :: "| [[Germany]] || ")) j)
      as [|Hlt]; [assumption|].
    exfalso. revert Hm.
    do 18 (destruct j as [|j]; [vm_compute; discriminate|]).
    vm_compute in Hlt. lia.
  - replace [txt "Germany_euroband.png"; txt "Germany_license_plate.jpg"]
      with (findall_files germany_row) by evaluate.
    apply findall_file_refs.
Defined.

(** C6.  A row with no code link at any position gives no entry,
    whatever file references it holds. *)
Theorem no_code_link_no_entry (row sec : text) :
  (forall i label, ~ code_link_at row i label) ->
  _parse_table_row row sec = None.
Proof.
  intros H. apply parse_table_row_None. left. now apply no_code_link_iff.
Qed.

Lemma no_code_link_no_entry_witness :
  findall_files header_row = [txt "Plate.jpg"] /\
  _parse_table_row header_row "countries" = None.
Proof.
  split; [evaluate|].
  apply (no_code_link_no_entry header_row "countries").
  apply no_code_link_iff. evaluate.
Defined.

(** A label that has a character outside [A-Z] does not match where its
    link stands. *)
Lemma bad_label_no_match (place label rest : text) :
  forallb not_bar place = true ->
  forallb (fun c => negb (Ascii.eqb c "]")) label = true ->
  forallb is_AZ label = false ->
  match_code_at (code_link place label ++ rest) = None.
Proof.
  intros Hplace Hclose Hbad.
  destruct (match_code_at (code_link place label ++ rest)) as [code|] eqn:E;
    [exfalso | reflexivity].
  apply match_code_at_Some in E as (place' & rest' & E & [_ Hp'] & [_ Hc]).
  unfold code_link in E. rewrite <- !app_assoc in E.
  apply app_inv_head in E.
  assert (E1 : span not_bar (place ++ "|" ++ label ++ "]]" ++ rest)
               = (place, "|" ++ label ++ "]]" ++ rest))
    by (apply span_unique; [assumption | reflexivity]).
  rewrite E in E1. rewrite span_unique in E1 by (auto; reflexivity).
  injection E1 as <- E1.
  pose proof (span_app is_AZ label) as Hl.
  pose proof (span_forallb is_AZ label) as Hu.
  pose proof (span_stops is_AZ label) as Hv.
  destruct (span is_AZ label) as [u v]; simpl in Hl, Hu, Hv.
  destruct v as [|c v].
  - rewrite app_nil_r in Hl. subst u. congruence.
  - assert (E2 : span is_AZ (label ++ "]]" ++ rest)
                 = (u, (c :: v) ++ "]]" ++ rest)).
    { rewrite Hl, <- app_assoc. now apply span_unique. }
    assert (E3 : span is_AZ (code ++ "]]" ++ rest')
                 = (code, "]]" ++ rest'))
      by (apply span_unique; [assumption | reflexivity]).
    change (code ++ "]]" ++ rest' = label ++ "]]" ++ rest) in E1.
    rewrite E1, E2 in E3. injection E3 as _ E3. subst c.
    rewrite Hl, forallb_app in Hclose.
    apply andb_true_iff in Hclose as [_ Hclose]. discriminate.
Qed.

(** C10.  The code of an entry is the label of the leftmost code link of
    the row, a link being recognised only with a label of one or more
    uppercase ASCII letters; a label with a digit, a lowercase letter or
    a space does not match, and a row whose only link has such a label
    gives no entry. *)
Theorem code_is_leftmost_uppercase_label :
  (forall (row sec : text) (e : entry),
      _parse_table_row row sec = Some e ->
      label_ok (wiki_code e) /\ leftmost_code row (wiki_code e)) /\
  (forall (row sec code : text) (e : entry),
      leftmost_code row code ->
      _parse_table_row row sec = Some e ->
      wiki_code e = code) /\
  (forall place label rest : text,
      forallb not_bar place = true ->
      forallb (fun c => negb (Ascii.eqb c "]")) label = true ->
      forallb is_AZ label = false ->
      match_code_at (code_link place label ++ rest) = None) /\
  (forall sec,
      _parse_table_row (bad_label_row "D1") sec = None /\
      _parse_table_row (bad_label_row "d") sec = None /\
      _parse_table_row (bad_label_row "D E") sec = None /\
      _parse_table_row (bad_label_row "") sec = None /\
      option_map wiki_code (_parse_table_row (bad_label_row "D") sec)
      = Some (txt "D")) /\
  (forall sec,
      option_map wiki_code (_parse_table_row two_links_row sec)
      = Some (txt "A")).
Proof.
  split; [|split; [|split; [|split]]].
  - intros row sec e He.
    apply parse_table_row_Some in He as (code & x & Hc & _ & _ & ->).
    simpl wiki_code. apply leftmost_code_iff in Hc. split; [|exact Hc].
    destruct Hc as (i & (pre & place & post & _ & _ & _ & Hl) & _).
    exact Hl.
  - intros row sec code e Hleft He.
    apply parse_table_row_Some in He as (code' & x & Hc & _ & _ & ->).
    apply leftmost_code_iff in Hleft. simpl. congruence.
  - exact bad_label_no_match.
  - intros sec.
    repeat (split;
      [apply parse_table_row_None; left; evaluate|]).
    evaluate.
  - intros sec. evaluate.
Qed.

Lemma code_is_leftmost_uppercase_label_witness :
  label_ok "D" /\ leftmost_code germany_row "D".
Proof.
  apply (proj1 code_is_leftmost_uppercase_label germany_row "countries"
           {| wiki_code := "D"; iso := "DE"; name := "Germany";
              image_file := "File:Germany_license_plate.jpg";
              section := "countries" |}).
  evaluate.
Defined.

(* ------------------------------------------------------------------ *)
(** ** The lookup tables *)

Lemma get_spec (d : dict) (key default : text) :
  In (key, get d key default) d \/
  ((forall v, ~ In (key, v) d) /\ get d key default = default).
Proof.
  induction d as [|[k v] d IH]; simpl.
  - right. split; auto.
  - unfold text_eqb. destruct (text_eq_dec k key) as [->|Hne].
    + left. now left.
    + destruct IH as [IH | [IH1 IH2]].
      * left. now right.
      * right. split; [|assumption].
        intros v' [[= ? ?] | Hin]; [congruence | now apply (IH1 v')].
Qed.

Lemma get_nonempty (d : dict) (key default : text) :
  forallb (fun kv => negb (text_eqb (snd kv) [])) d = true ->
  default <> [] ->
  get d key default <> [].
Proof.
  intros Hd Hdef. induction d as [|[k v] d IH]; simpl in *; [assumption|].
  apply andb_true_iff in Hd as [Hv Hd].
  destruct (text_eqb k key); [|auto].
  unfold text_eqb in Hv. now destruct (text_eq_dec v []).
Qed.

(** The keys of each dict literal are distinct, so the first item with a
    key is the only one. *)
Lemma WIKI_CODE_TO_ISO_keys : NoDup (map fst WIKI_CODE_TO_ISO).
Proof.
  replace (map fst WIKI_CODE_TO_ISO)
    with (nodup text_eq_dec (map fst WIKI_CODE_TO_ISO))
    by evaluate.
  apply NoDup_nodup.
Qed.

Lemma TERRITORY_NAMES_keys : NoDup (map fst TERRITORY_NAMES).
Proof.
  replace (map fst TERRITORY_NAMES)
    with (nodup text_eq_dec (map fst TERRITORY_NAMES))
    by evaluate.
  apply NoDup_nodup.
Qed.

(** C5.  For every code that is not empty, as every code the classifier
    extracts is, the territory id and the display name are not empty:
    the id is the table's value for the code or else the code, and the
    name is the table's value for the id or else the code.  UK gives GB
    and United Kingdom; XYZ, in no table, gives XYZ twice. *)
Theorem canonicalization_total :
  (forall code : text,
      code <> [] ->
      canonical_iso code <> [] /\ canonical_name code <> [] /\
      (In (code, canonical_iso code) WIKI_CODE_TO_ISO \/
       (forall v, ~ In (code, v) WIKI_CODE_TO_ISO) /\
       canonical_iso code = code) /\
      (In (canonical_iso code, canonical_name code) TERRITORY_NAMES \/
       (forall v, ~ In (canonical_iso code, v) TERRITORY_NAMES) /\
       canonical_name code = code)) /\
  (forall (row sec : text) (e : entry),
      _parse_table_row row sec = Some e ->
      wiki_code e <> [] /\
      iso e = canonical_iso (wiki_code e) /\
      name e = canonical_name (wiki_code e) /\
      iso e <> [] /\ name e <> []) /\
  (canonical_iso "UK" = "GB" /\ canonical_name "UK" = "United Kingdom") /\
  (canonical_iso "XYZ" = "XYZ" /\ canonical_name "XYZ" = "XYZ").
Proof.
  assert (Hne : forall code : text, code <> [] ->
                  canonical_iso code <> [] /\ canonical_name code <> []).
  { intros code Hcode. unfold canonical_name, canonical_iso.
    split; apply get_nonempty; auto; evaluate. }
  split; [|split; [|split]].
  - intros code Hcode. destruct (Hne code Hcode) as [H1 H2].
    split; [exact H1|]. split; [exact H2|].
    split; apply get_spec.
  - intros row sec e He.
    apply parse_table_row_Some in He as (code & x & Hc & _ & _ & ->).
    simpl. apply leftmost_code_iff in Hc
      as (i & (pre & place & post & _ & _ & _ & [Hl _]) & _).
    destruct (Hne code Hl). auto.
  - split; evaluate.
  - split; evaluate.
Qed.

Lemma canonicalization_total_witness :
  txt "UK" <> [] /\
  canonical_iso "UK" <> [] /\ canonical_name "UK" <> [].
Proof.
  assert (H : txt "UK" <> []) by discriminate.
  split; [exact H|].
  destruct (proj1 canonicalization_total "UK" H) as (H1 & H2 & _).
  split; assumption.
Defined.

(* ------------------------------------------------------------------ *)
(** ** Occurrences, [find] and slices *)

(** [sub] stands in [s] at position [i]. *)
Definition occurs_at (s sub : text) (i : nat) : Prop :=
  exists pre post, s = pre ++ sub ++ post /\ length pre = i.

(** [i] is the first position at or after [from] where [sub] stands. *)
Definition first_from (s sub : text) (from i : nat) : Prop :=
  from <= i /\ occurs_at s sub i /\
  forall j, from <= j -> occurs_at s sub j -> i <= j.

(** [sub] stands nowhere at or after [from]. *)
Definition absent_from (s sub : text) (from : nat) : Prop :=
  forall j, from <= j -> ~ occurs_at s sub j.

Lemma occurs_at_bound (s sub : text) (i : nat) :
  occurs_at s sub i -> i + length sub <= length s.
Proof.
  intros (pre & post & -> & <-). rewrite !length_app. lia.
Qed.

Lemma occurs_at_0 (s sub : text) :
  occurs_at s sub 0 <-> startswith s sub = true.
Proof.
  rewrite startswith_true. split.
  - intros (pre & post & -> & Hlen).
    destruct pre; [|discriminate]. now exists post.
  - intros [post ->]. now exists [], post.
Qed.

Lemma occurs_at_S (c : ascii) (s sub : text) (i : nat) :
  occurs_at (c :: s) sub (S i) <-> occurs_at s sub i.
Proof.
  split.
  - intros (pre & post & E & Hlen).
    destruct pre as [|c' pre]; [discriminate|].
    injection E as -> ->. injection Hlen as <-. now exists pre, post.
  - intros (pre & post & -> & <-). now exists (c :: pre), post.
Qed.

Lemma occurs_at_skipn (s sub : text) (from k : nat) :
  from <= length s ->
  occurs_at (skipn from s) sub k <-> occurs_at s sub (from + k).
Proof.
  revert s. induction from as [|from IH]; intros s Hlen.
  - reflexivity.
  - destruct s as [|c s]; [simpl in Hlen; lia|].
    simpl in Hlen. simpl skipn. simpl Nat.add.
    rewrite occurs_at_S. apply IH. lia.
Qed.

Lemma index_of_eq (sub s : text) :
  index_of sub s
  = if startswith s sub then Some 0
    else match s with
         | [] => None
         | _ :: s' => option_map S (index_of sub s')
         end.
Proof. destruct s; reflexivity. Qed.

Lemma index_of_spec (sub s : text) :
  match index_of sub s with
  | Some i => occurs_at s sub i /\ forall j, j < i -> ~ occurs_at s sub j
  | None => forall j, ~ occurs_at s sub j
  end.
Proof.
  induction s as [|c s IH]; rewrite index_of_eq.
  - destruct (startswith [] sub) eqn:E.
    + split; [now apply occurs_at_0 | intros j Hj; lia].
    + intros j Hj. pose proof (occurs_at_bound _ _ _ Hj) as Hb.
      simpl in Hb. assert (j = 0) by lia. subst.
      apply occurs_at_0 in Hj. congruence.
  - destruct (startswith (c :: s) sub) eqn:E.
    + split; [now apply occurs_at_0 | intros j Hj; lia].
    + destruct (index_of sub s) as [i|]; simpl.
      * destruct IH as [Hi Hmin]. split; [now apply occurs_at_S|].
        intros [|j] Hj Hocc.
        -- apply occurs_at_0 in Hocc. congruence.
        -- apply occurs_at_S in Hocc. apply (Hmin j); [lia | exact Hocc].
      * intros [|j] Hocc.
        -- apply occurs_at_0 in Hocc. congruence.
        -- apply occurs_at_S in Hocc. now apply (IH j).
Qed.

Lemma first_from_unique (s sub : text) (from i j : nat) :
  first_from s sub from i -> first_from s sub from j -> i = j.
Proof.
  intros (Hi & Oi & Mi) (Hj & Oj & Mj).
  pose proof (Mi j Hj Oj). pose proof (Mj i Hi Oi). lia.
Qed.

(** [find] from a position that is not negative. *)
Lemma find_spec (s sub : text) (from : nat) :
  (find s sub (Z.of_nat from) = (-1)%Z /\ absent_from s sub from) \/
  (exists i, find s sub (Z.of_nat from) = Z.of_nat i /\
             first_from s sub from i).
Proof.
  unfold find.
  assert (Hneg : (Z.of_nat from <? 0)%Z = false) by (apply Z.ltb_ge; lia).
  rewrite Hneg.
  destruct (Z.of_nat (length s) <? Z.of_nat from)%Z eqn:Hlen.
  - left. split; [reflexivity|]. apply Z.ltb_lt in Hlen.
    intros j Hj Hocc. apply occurs_at_bound in Hocc. lia.
  - apply Z.ltb_ge in Hlen. rewrite Nat2Z.id.
    assert (Hfrom : from <= length s) by lia.
    pose proof (index_of_spec sub (skipn from s)) as Hspec.
    destruct (index_of sub (skipn from s)) as [k|].
    + right. exists (from + k). destruct Hspec as [Hocc Hmin].
      split; [lia|]. split; [lia|]. split.
      * now apply occurs_at_skipn.
      * intros j Hj Hoj.
        destruct (Nat.le_gt_cases (from + k) j) as [|Hlt]; [assumption|].
        exfalso. apply (Hmin (j - from)); [lia|].
        apply occurs_at_skipn; [assumption|].
        now replace (from + (j - from)) with j by lia.
    + left. split; [reflexivity|]. intros j Hj Hocc.
      apply (Hspec (j - from)). apply occurs_at_skipn; [assumption|].
      now replace (from + (j - from)) with j by lia.
Qed.

Lemma find_first (s sub : text) (from i : nat) :
  first_from s sub from i -> find s sub (Z.of_nat from) = Z.of_nat i.
Proof.
  intros Hi. destruct (find_spec s sub from) as [[_ Habs] | (j & E & Hj)].
  - destruct Hi as (Hle & Hocc & _). now destruct (Habs i Hle).
  - now rewrite (first_from_unique _ _ _ _ _ Hi Hj).
Qed.

Lemma find_absent (s sub : text) (from : nat) :
  absent_from s sub from -> find s sub (Z.of_nat from) = (-1)%Z.
Proof.
  intros Habs. destruct (find_spec s sub from) as [[E _] | (j & _ & Hj)].
  - exact E.
  - destruct Hj as (Hle & Hocc & _). now destruct (Habs j Hle).
Qed.

Lemma not_minus_one (i : nat) : (Z.of_nat i =? -1)%Z = false.
Proof. apply Z.eqb_neq. lia. Qed.

(** A slice between two positions of the text, in order. *)
Lemma slice_nat (s : text) (a b : nat) :
  a <= b -> b <= length s ->
  slice s (Z.of_nat a) (Z.of_nat b) = firstn (b - a) (skipn a s).
Proof.
  intros Hab Hb. unfold slice.
  assert (Ha' : (Z.of_nat a <? 0)%Z = false) by (apply Z.ltb_ge; lia).
  assert (Hb' : (Z.of_nat b <? 0)%Z = false) by (apply Z.ltb_ge; lia).
  rewrite Ha', Hb'.
  rewrite !Z.min_l by lia. rewrite Nat2Z.id. f_equal. lia.
Qed.

(* ------------------------------------------------------------------ *)
(** ** Rows of a table *)

Lemma split_rows_from_0 (cur : text) (c : ascii) (s : text) :
  split_rows_from 0 cur (c :: s)
  = if startswith (c :: s) row_separator
    then rev cur :: split_rows_from (length row_separator - 1) [] s
    else split_rows_from 0 (c :: cur) s.
Proof. reflexivity. Qed.

(** At a separator the piece read so far is closed and the scan resumes
    behind the separator. *)
Lemma split_rows_sep (cur rest : text) :
  split_rows_from 0 cur (row_separator ++ rest) = rev cur :: split_rows rest.
Proof. reflexivity. Qed.

(** The piece being read only adds to the front of the first piece. *)
Lemma split_rows_from_cur (k : nat) (cur s : text) :
  split_rows_from k cur s
  = match split_rows_from k [] s with
    | hd :: tl => (rev cur ++ hd) :: tl
    | [] => []
    end.
Proof.
  revert k cur; induction s as [|c s IH]; intros k cur.
  - simpl. now rewrite app_nil_r.
  - destruct k as [|k]; [|simpl; apply IH].
    rewrite !split_rows_from_0.
    destruct (startswith (c :: s) row_separator).
    + simpl. now rewrite app_nil_r.
    + rewrite (IH 0 (c :: cur)), (IH 0 [c]).
      destruct (split_rows_from 0 [] s) as [|hd tl]; [reflexivity|].
      simpl. now rewrite <- app_assoc.
Qed.

Lemma split_rows_scan (a cur rest : text) :
  (forall j, j < length a ->
             ~ occurs_at (a ++ row_separator ++ rest) row_separator j) ->
  split_rows_from 0 cur (a ++ row_separator ++ rest)
  = (rev cur ++ a) :: split_rows rest.
Proof.
  revert cur; induction a as [|c a IH]; intros cur Hfirst.
  - rewrite app_nil_l, split_rows_sep. now rewrite app_nil_r.
  - rewrite <- app_comm_cons in *. rewrite split_rows_from_0.
    destruct (startswith (c :: a ++ row_separator ++ rest) row_separator)
      eqn:E.
    + exfalso. apply (Hfirst 0); [simpl; lia|]. now apply occurs_at_0.
    + rewrite IH.
      * simpl. now rewrite <- app_assoc.
      * intros j Hj Hocc. apply (Hfirst (S j)); [simpl; lia|].
        now apply occurs_at_S.
Qed.

Lemma split_rows_whole (s cur : text) :
  absent_from s row_separator 0 ->
  split_rows_from 0 cur s = [rev cur ++ s].
Proof.
  revert cur; induction s as [|c s IH]; intros cur Habs.
  - simpl. now rewrite app_nil_r.
  - rewrite split_rows_from_0.
    destruct (startswith (c :: s) row_separator) eqn:E.
    + exfalso. apply (Habs 0); [lia|]. now apply occurs_at_0.
    + rewrite IH.
      * simpl. now rewrite <- app_assoc.
      * intros j _ Hocc. apply (Habs (S j)); [lia|]. now apply occurs_at_S.
Qed.

(** [split_rows] cuts at the first separator and goes on behind it. *)
Lemma split_rows_first (s : text) (i : nat) :
  first_from s row_separator 0 i ->
  split_rows s
  = firstn i s :: split_rows (skipn (i + length row_separator) s).
Proof.
  intros (_ & (pre & post & -> & <-) & Hmin).
  unfold split_rows at 1. rewrite split_rows_scan.
  - rewrite firstn_app, firstn_all, Nat.sub_diag, app_nil_r. simpl rev.
    do 2 f_equal. rewrite app_assoc, skipn_app, skipn_all2
      by (rewrite length_app; lia).
    rewrite length_app, Nat.sub_diag. reflexivity.
  - intros j Hj Hocc. apply Hmin in Hocc; lia.
Qed.

(** Without a separator the text is one piece. *)
Lemma split_rows_last (s : text) :
  absent_from s row_separator 0 -> split_rows s = [s].
Proof. intros H. unfold split_rows. now rewrite split_rows_whole. Qed.

(** A character that cannot begin a separator stays in the first piece. *)
Lemma split_rows_tl (c : ascii) (s : text) :
  Ascii.eqb LF c = false ->
  tl (split_rows (c :: s)) = tl (split_rows s).
Proof.
  intros Hc. unfold split_rows. rewrite split_rows_from_0.
  change (startswith (c :: s) row_separator)
    with (Ascii.eqb LF c && startswith s "|-").
  rewrite Hc. simpl andb. cbv iota.
  rewrite split_rows_from_cur.
  now destruct (split_rows_from 0 [] s).
Qed.

Lemma first_from_find (s sub : text) (from i : nat) :
  find s sub (Z.of_nat from) = Z.of_nat i -> first_from s sub from i.
Proof.
  intros E. destruct (find_spec s sub from) as [[E' _] | (j & E' & Hj)].
  - rewrite E' in E. lia.
  - rewrite E' in E. apply Nat2Z.inj in E. now subst.
Qed.

Lemma absent_from_find (s sub : text) (from : nat) :
  find s sub (Z.of_nat from) = (-1)%Z -> absent_from s sub from.
Proof.
  intros E. destruct (find_spec s sub from) as [[_ H] | (j & E' & _)].
  - exact H.
  - rewrite E' in E. lia.
Qed.

(* ------------------------------------------------------------------ *)
(** ** The table extractor, section by section *)

(** The entries of a list of rows, in the order of the rows. *)
Definition classify_rows (section_name : text) (rows : list text)
  : list entry :=
  flat_map
    (fun row =>
       match _parse_table_row row section_name with
       | Some e => [e]
       | None => []
       end)
    rows.

(** The rows of the table under [header] that reach the classifier: the
    [rows[1:]] of a section that is not skipped. *)
Definition data_rows (wikitext header : text) : list text :=
  let start := find wikitext header 0 in
  if (start =? -1)%Z then []
  else
    let table_start := find wikitext "{|" start in
    let table_end := find wikitext "|}" table_start in
    if (table_start =? -1)%Z || (table_end =? -1)%Z then []
    else skipn 1 (split_rows (slice wikitext table_start table_end)).

(** The lines a section prints. *)
Definition warnings (wikitext header : text) : list text :=
  if (find wikitext header 0 =? -1)%Z then [warning header] else [].

Lemma parse_rows_eq (section_name : text) (rows : list text)
    (entries : list entry) :
  parse_rows section_name rows entries
  = entries ++ classify_rows section_name rows.
Proof.
  unfold parse_rows, classify_rows.
  revert entries; induction rows as [|row rows IH]; intros entries; simpl.
  - now rewrite app_nil_r.
  - rewrite IH. destruct (_parse_table_row row section_name); simpl.
    + now rewrite <- app_assoc.
    + reflexivity.
Qed.

(** A turn of the outer loop only appends, to the entries and to the
    printed lines. *)
Lemma parse_section_eq (wikitext : text) (entries : list entry)
    (out : list text) (section_name header : text) :
  parse_section wikitext (entries, out) (section_name, header)
  = (entries ++ classify_rows section_name (data_rows wikitext header),
     out ++ warnings wikitext header).
Proof.
  unfold parse_section, data_rows, warnings.
  destruct (find wikitext header 0 =? -1)%Z.
  - simpl. now rewrite app_nil_r.
  - destruct ((find wikitext "{|" (find wikitext header 0) =? -1)%Z
              || (find wikitext "|}"
                    (find wikitext "{|" (find wikitext header 0)) =? -1)%Z).
    + simpl. now rewrite !app_nil_r.
    + now rewrite parse_rows_eq, app_nil_r.
Qed.

Lemma parse_sections_eq (wikitext : text) (secs : list (text * text))
    (entries : list entry) (out : list text) :
  fold_left (parse_section wikitext) secs (entries, out)
  = (entries
     ++ flat_map (fun sec => classify_rows (fst sec)
                               (data_rows wikitext (snd sec))) secs,
     out ++ flat_map (fun sec => warnings wikitext (snd sec)) secs).
Proof.
  revert entries out.
  induction secs as [|[section_name header] secs IH]; intros entries out.
  - simpl. now rewrite !app_nil_r.
  - cbn [fold_left]. rewrite parse_section_eq, IH. cbn [flat_map fst snd].
    now rewrite <- !app_assoc.
Qed.

Lemma classify_rows_section (section_name : text) (rows : list text)
    (e : entry) :
  In e (classify_rows section_name rows) -> section e = section_name.
Proof.
  unfold classify_rows. rewrite in_flat_map. intros (row & _ & Hin).
  destruct (_parse_table_row row section_name) as [e'|] eqn:He;
    [|contradiction].
  destruct Hin as [<- | []].
  apply parse_table_row_Some in He as (code & x & _ & _ & _ & ->).
  reflexivity.
Qed.

Lemma find_header (wikitext header : text) (start : nat) :
  first_from wikitext header 0 start ->
  find wikitext header 0 = Z.of_nat start.
Proof. intros H. exact (find_first wikitext header 0 start H). Qed.

Lemma find_header_absent (wikitext header : text) :
  absent_from wikitext header 0 -> find wikitext header 0 = (-1)%Z.
Proof. intros H. exact (find_absent wikitext header 0 H). Qed.

Lemma data_rows_found (wikitext header : text) (start ts te : nat) :
  first_from wikitext header 0 start ->
  first_from wikitext "{|" start ts ->
  first_from wikitext "|}" ts te ->
  data_rows wikitext header
  = tl (split_rows (firstn (te - ts) (skipn ts wikitext))).
Proof.
  intros Hh Ho Hc. unfold data_rows.
  rewrite (find_header _ _ _ Hh), not_minus_one.
  rewrite (find_first _ _ _ _ Ho), (find_first _ _ _ _ Hc).
  rewrite !not_minus_one. simpl orb. cbv iota.
  destruct Hc as (Hle & Hocc & _). apply occurs_at_bound in Hocc.
  rewrite slice_nat by lia.
  now destruct (split_rows (firstn (te - ts) (skipn ts wikitext))).
Qed.

Lemma data_rows_no_header (wikitext header : text) :
  absent_from wikitext header 0 -> data_rows wikitext header = [].
Proof.
  intros H. unfold data_rows. now rewrite (find_header_absent _ _ H).
Qed.

Lemma data_rows_no_open (wikitext header : text) (start : nat) :
  first_from wikitext header 0 start ->
  absent_from wikitext "{|" start ->
  data_rows wikitext header = [].
Proof.
  intros Hh Ho. unfold data_rows.
  rewrite (find_header _ _ _ Hh), not_minus_one.
  now rewrite (find_absent _ _ _ Ho).
Qed.

Lemma data_rows_no_close (wikitext header : text) (start ts : nat) :
  first_from wikitext header 0 start ->
  first_from wikitext "{|" start ts ->
  absent_from wikitext "|}" ts ->
  data_rows wikitext header = [].
Proof.
  intros Hh Ho Hc. unfold data_rows.
  rewrite (find_header _ _ _ Hh), not_minus_one.
  rewrite (find_first _ _ _ _ Ho), (find_absent _ _ _ Hc).
  rewrite not_minus_one. reflexivity.
Qed.

Lemma warnings_found (wikitext header : text) (start : nat) :
  first_from wikitext header 0 start -> warnings wikitext header = [].
Proof.
  intros H. unfold warnings.
  now rewrite (find_header _ _ _ H), not_minus_one.
Qed.

Lemma warnings_absent (wikitext header : text) :
  absent_from wikitext header 0 ->
  warnings wikitext header = [warning header].
Proof.
  intros H. unfold warnings. now rewrite (find_header_absent _ _ H).
Qed.

(** The table text begins with the open marker; without it the same
    rows follow the first separator. *)
Lemma table_text_between (wikitext : text) (ts te : nat) :
  occurs_at wikitext "{|" ts -> ts + 2 <= te ->
  tl (split_rows (firstn (te - ts) (skipn ts wikitext)))
  = tl (split_rows (firstn (te - (ts + 2)) (skipn (ts + 2) wikitext))).
Proof.
  intros (pre & post & -> & <-) Hte.
  assert (E1 : skipn (length pre) (pre ++ "{|" ++ post)
               = "{"%char :: "|"%char :: post)
    by (rewrite skipn_app, skipn_all, Nat.sub_diag; reflexivity).
  assert (E2 : skipn (length pre + 2) (pre ++ "{|" ++ post) = post)
    by (rewrite Nat.add_comm, <- skipn_skipn, E1; reflexivity).
  rewrite E1, E2.
  replace (te - length pre) with (S (S (te - (length pre + 2)))) by lia.
  cbn [firstn]. now rewrite !split_rows_tl by reflexivity.
Qed.

(* ------------------------------------------------------------------ *)
(** ** Properties of the table extractor *)

(** A small article: three of the four sections, a header row and data
    rows in each table, no "Disputed territories" heading. *)
Definition countries_table : text :=
  "{| class=wikitable" ++ LF :: "! Country !! Code !! Strip !! Example"
  ++ LF :: "|-" ++ LF :: "| [[Germany]] || " ++ germany_link ++ " || "
  ++ euroband_ref ++ " || " ++ plate_ref
  ++ LF :: "|-" ++ LF :: "| [[United Kingdom]] || "
  ++ "[[Vehicle registration plates of the United Kingdom|UK]]"
  ++ " || [[File:UK-band.svg]] || [[Image:British plate.png|200px]]"
  ++ LF :: "|}".

Definition transcontinental_table : text :=
  "{| class=wikitable" ++ LF :: "! Country !! Code"
  ++ LF :: "|-" ++ LF
  :: "| [[Vehicle registration plates of Turkey|TR]] || [[File:Turkey plate.jpg]]"
  ++ LF :: "|}".

Definition dependent_table : text :=
  "{| class=wikitable" ++ LF :: "! Territory !! Code"
  ++ LF :: "|-" ++ LF
  :: "| [[Vehicle registration plates of Gibraltar|GBZ]] || [[File:Gibraltar plate.jpg]]"
  ++ LF :: "|}".

Definition article : text :=
  "Plates of Europe." ++ LF :: "=== Countries ===" ++ LF :: countries_table
  ++ LF :: "=== Transcontinental countries ===" ++ LF
  :: transcontinental_table
  ++ LF :: "=== Dependent territories ===" ++ LF :: dependent_table
  ++ LF :: "See also".

Lemma occurs_at_skipn_head (w sub : text) (i : nat) :
  occurs_at w sub i -> exists post, skipn i w = sub ++ post.
Proof.
  intros (pre & post & -> & <-). exists post.
  now rewrite skipn_app, skipn_all, Nat.sub_diag.
Qed.

(** A close marker found at the second character of the open marker
    leaves the one-character table text [{], which has no data row. *)
Lemma table_text_overlap (w : text) (ts te : nat) :
  occurs_at w "{|" ts -> occurs_at w "|}" te ->
  ts <= te -> te < ts + 2 ->
  tl (split_rows (firstn (te - ts) (skipn ts w))) = [].
Proof.
  intros Ho Hc Hle Hlt.
  destruct (occurs_at_skipn_head _ _ _ Ho) as [post Eo].
  destruct (occurs_at_skipn_head _ _ _ Hc) as [post' Ec].
  assert (Hte : te = ts \/ te = ts + 1) by lia.
  destruct Hte as [-> | ->].
  - rewrite Eo in Ec. discriminate.
  - rewrite Eo. replace (ts + 1 - ts) with 1 by lia. reflexivity.
Qed.

(** C7 (as amended).  With the heading found, the table text runs from
    the first open marker at or after the heading to the first close
    marker at or after the position of that open marker; the text is
    split at the row separators, the first piece is dropped and the
    others are classified in order.  When the close marker lies behind
    the open marker, the open marker is in the dropped piece and the
    rows are those of the text between the markers; when the close
    marker overlaps the open marker, in [{|}], no row is read.  A
    section with no open marker, or no close marker, adds nothing. *)
Theorem table_body_rows :
  (forall (w section_name header : text) (entries : list entry)
          (out : list text) (start : nat),
      first_from w header 0 start ->
      (forall ts te,
          first_from w "{|" start ts ->
          first_from w "|}" ts te ->
          parse_section w (entries, out) (section_name, header)
          = (entries
             ++ classify_rows section_name
                  (tl (split_rows (firstn (te - ts) (skipn ts w)))),
             out) /\
          (ts + 2 <= te ->
           tl (split_rows (firstn (te - ts) (skipn ts w)))
           = tl (split_rows
                   (firstn (te - (ts + 2)) (skipn (ts + 2) w)))) /\
          (te < ts + 2 ->
           parse_section w (entries, out) (section_name, header)
           = (entries, out))) /\
      (absent_from w "{|" start ->
       parse_section w (entries, out) (section_name, header)
       = (entries, out)) /\
      (forall ts,
          first_from w "{|" start ts ->
          absent_from w "|}" ts ->
          parse_section w (entries, out) (section_name, header)
          = (entries, out))) /\
  (forall (s : text) (i : nat),
      first_from s row_separator 0 i ->
      split_rows s
      = firstn i s :: split_rows (skipn (i + length row_separator) s)) /\
  (forall s : text, absent_from s row_separator 0 -> split_rows s = [s]).
Proof.
  split; [|split; [exact split_rows_first | exact split_rows_last]].
  intros w section_name header entries out start Hh.
  rewrite parse_section_eq, (warnings_found _ _ _ Hh), app_nil_r.
  split; [|split].
  - intros ts te Ho Hc. rewrite (data_rows_found _ _ _ _ _ Hh Ho Hc).
    split; [reflexivity|].
    destruct Ho as (_ & Hocc & _). destruct Hc as (Hle & Hocc' & _).
    split; [now apply table_text_between|].
    intros Hlt. rewrite (table_text_overlap w ts te) by assumption.
    simpl. now rewrite app_nil_r.
  - intros Ho. rewrite (data_rows_no_open _ _ _ Hh Ho).
    simpl. now rewrite app_nil_r.
  - intros ts Ho Hc. rewrite (data_rows_no_close _ _ _ _ Hh Ho Hc).
    simpl. now rewrite app_nil_r.
Qed.

Lemma table_body_rows_witness :
  first_from article "=== Countries ===" 0 18 /\
  first_from article "{|" 18 36 /\
  first_from article "|}" 36 374 /\
  parse_section article ([], []) (txt "countries", txt "=== Countries ===")
  = ([] ++ classify_rows "countries"
             (tl (split_rows (firstn (374 - 36) (skipn 36 article)))),
     []).
Proof.
  assert (Hh : first_from article "=== Countries ===" 0 18)
    by (apply first_from_find; evaluate).
  assert (Ho : first_from article "{|" 18 36)
    by (apply first_from_find; evaluate).
  assert (Hc : first_from article "|}" 36 374)
    by (apply first_from_find; evaluate).
  repeat (split; [assumption|]).
  exact (proj1 (proj1 (proj1 table_body_rows article "countries"
                         "=== Countries ===" [] [] 18 Hh) 36 374 Ho Hc)).
Defined.

(** An article whose table opens with [{|}]: the close marker nearest
    to the open marker shares its [|]. *)
Definition overlap_article : text :=
  "=== Countries ===" ++ LF :: "{|}" ++ LF :: "|-" ++ LF :: "| "
  ++ germany_link ++ " || [[File:Plate.jpg]]" ++ LF :: "|}".

(** C7 as stated fails: in [overlap_article] the open marker is at 18
    and the next close marker behind it is at 94; the text between them
    has the Germany row, which classifies as code D.  The extractor
    finds the close marker at 19, inside the open marker, and reads no
    row. *)
Lemma overlapping_markers_lose_rows :
  first_from overlap_article "=== Countries ===" 0 0 /\
  first_from overlap_article "{|" 0 18 /\
  first_from overlap_article "|}" (18 + 2) 94 /\
  map wiki_code
    (classify_rows "countries"
       (tl (split_rows (firstn (94 - (18 + 2))
                          (skipn (18 + 2) overlap_article)))))
  = [txt "D"] /\
  first_from overlap_article "|}" 18 19 /\
  parse_section overlap_article ([], [])
    (txt "countries", txt "=== Countries ===")
  = ([], []) /\
  fst (parse_plate_tables overlap_article []) = [].
Proof.
  split; [apply first_from_find; evaluate|].
  split; [apply first_from_find; evaluate|].
  split; [apply first_from_find; evaluate|].
  split; [evaluate|].
  split; [apply first_from_find; evaluate|].
  split; evaluate.
Qed.

(** The place of a section label in the declared list. *)
Fixpoint rank_in (secs : list (text * text)) (label : text) : nat :=
  match secs with
  | [] => 0
  | (section_name, _) :: secs' =>
      if text_eqb section_name label then 0 else S (rank_in secs' label)
  end.

Definition section_rank (label : text) : nat := rank_in sections label.

(** What one section adds to the entries. *)
Definition section_entries (wikitext : text) (sec : text * text)
  : list entry :=
  classify_rows (fst sec) (data_rows wikitext (snd sec)).

Lemma parse_plate_tables_eq (wikitext : text) (out : list text) :
  parse_plate_tables wikitext out
  = (flat_map (section_entries wikitext) sections,
     out ++ flat_map (fun sec => warnings wikitext (snd sec)) sections).
Proof. unfold parse_plate_tables. now rewrite parse_sections_eq. Qed.

Lemma sorted_app (l1 l2 : list nat) :
  StronglySorted le l1 -> StronglySorted le l2 ->
  (forall x y, In x l1 -> In y l2 -> x <= y) ->
  StronglySorted le (l1 ++ l2).
Proof.
  intros H1 H2 H12. induction H1 as [|x l1 Hs IH Hx]; simpl; [assumption|].
  constructor.
  - apply IH. intros a b Ha Hb. apply H12; [now right | assumption].
  - apply Forall_app. split; [assumption|].
    apply Forall_forall. intros y Hy. apply H12; [now left | assumption].
Qed.

Lemma sorted_constant (r : nat) (l : list nat) :
  (forall x, In x l -> x = r) -> StronglySorted le l.
Proof.
  intros H. induction l as [|x l IH]; constructor.
  - apply IH. intros y Hy. apply H. now right.
  - apply Forall_forall. intros y Hy.
    rewrite (H x (or_introl eq_refl)), (H y (or_intror Hy)). lia.
Qed.

Lemma section_entries_rank (wikitext section_name header : text) (r : nat) :
  In r (map (fun e => section_rank (section e))
          (section_entries wikitext (section_name, header))) ->
  r = section_rank section_name.
Proof.
  rewrite in_map_iff. intros (e & <- & He).
  now rewrite (classify_rows_section _ _ _ He).
Qed.

(** C4.  The entries depend on the markup alone: whatever was printed
    before, two runs on the same markup return the same list, and print
    the same lines.  The list is the entries of the countries table,
    then those of the transcontinental, dependent and disputed tables;
    each part carries the label of its section and follows the order of
    the rows of its table. *)
Theorem extraction_order (w : text) :
  (forall out1 out2 : list text,
      fst (parse_plate_tables w out1) = fst (parse_plate_tables w out2)) /\
  (exists printed,
      forall out, snd (parse_plate_tables w out) = out ++ printed) /\
  (forall out : list text,
      fst (parse_plate_tables w out)
      = classify_rows "countries" (data_rows w "=== Countries ===")
        ++ classify_rows "transcontinental"
             (data_rows w "=== Transcontinental countries ===")
        ++ classify_rows "dependent"
             (data_rows w "=== Dependent territories ===")
        ++ classify_rows "disputed"
             (data_rows w "=== Disputed territories ===")) /\
  (forall (section_name : text) (rows : list text) (e : entry),
      In e (classify_rows section_name rows) -> section e = section_name) /\
  (forall (section_name row : text) (rows : list text),
      classify_rows section_name (row :: rows)
      = match _parse_table_row row section_name with
        | Some e => [e]
        | None => []
        end ++ classify_rows section_name rows) /\
  (forall out : list text,
      StronglySorted le
        (map (fun e => section_rank (section e))
           (fst (parse_plate_tables w out)))).
Proof.
  split; [|split; [|split; [|split; [|split]]]].
  - intros out1 out2. now rewrite !parse_plate_tables_eq.
  - exists (flat_map (fun sec => warnings w (snd sec)) sections).
    intros out. now rewrite parse_plate_tables_eq.
  - intros out. rewrite parse_plate_tables_eq. simpl fst.
    unfold sections, items, section_entries. cbn [map flat_map fst snd].
    now rewrite app_nil_r.
  - exact classify_rows_section.
  - reflexivity.
  - intros out. rewrite parse_plate_tables_eq. simpl fst.
    unfold sections, items. cbn [map flat_map fst snd].
    rewrite app_nil_r, !map_app.
    repeat (apply sorted_app;
            [eapply sorted_constant; intros x Hx;
             apply section_entries_rank in Hx; exact Hx | | ]).
    + eapply sorted_constant. intros x Hx.
      apply section_entries_rank in Hx. exact Hx.
    + intros x y Hx Hy. apply section_entries_rank in Hx, Hy.
      subst. vm_compute. lia.
    + intros x y Hx Hy. rewrite in_app_iff in Hy.
      apply section_entries_rank in Hx.
      destruct Hy as [Hy | Hy]; apply section_entries_rank in Hy;
        subst; vm_compute; lia.
    + intros x y Hx Hy. rewrite !in_app_iff in Hy.
      apply section_entries_rank in Hx.
      destruct Hy as [Hy | [Hy | Hy]]; apply section_entries_rank in Hy;
        subst; vm_compute; lia.
Qed.

(** The order at [article]: two entries of the countries table in row
    order, then the transcontinental and the dependent one. *)
Lemma extraction_order_witness :
  map (fun e => (wiki_code e, section e))
    (fst (parse_plate_tables article []))
  = [(txt "D", txt "countries"); (txt "UK", txt "countries");
     (txt "TR", txt "transcontinental"); (txt "GBZ", txt "dependent")] /\
  StronglySorted le
    (map (fun e => section_rank (section e))
       (fst (parse_plate_tables article []))).
Proof.
  split; [evaluate|].
  destruct (extraction_order article) as (_ & _ & _ & _ & _ & Hsorted).
  exact (Hsorted []).
Defined.

Lemma keys_unique (l : list (text * text)) (k v1 v2 : text) :
  NoDup (map fst l) -> In (k, v1) l -> In (k, v2) l -> v1 = v2.
Proof.
  induction l as [|[k' v'] l IH]; simpl; [contradiction|].
  intros Hnd H1 H2. inversion Hnd as [|? ? Hnotin Hnd']; subst.
  destruct H1 as [E1 | H1], H2 as [E2 | H2].
  - congruence.
  - exfalso. apply Hnotin. apply (in_map fst) in H2.
    simpl in H2. congruence.
  - exfalso. apply Hnotin. apply (in_map fst) in H1.
    simpl in H1. congruence.
  - now apply IH.
Qed.

Lemma sections_labels : NoDup (map fst sections).
Proof.
  replace (map fst sections)
    with (nodup text_eq_dec (map fst sections))
    by evaluate.
  apply NoDup_nodup.
Qed.

Lemma text_eqb_true (a b : text) : text_eqb a b = true <-> a = b.
Proof.
  unfold text_eqb. destruct (text_eq_dec a b); split; congruence.
Qed.

Lemma flat_map_filter (f : text * text -> list entry)
    (p : text * text -> bool) (l : list (text * text)) :
  (forall x, In x l -> p x = false -> f x = []) ->
  flat_map f l = flat_map f (filter p l).
Proof.
  intros H. induction l as [|x l IH]; simpl; [reflexivity|].
  rewrite IH by (intros y Hy; apply H; now right).
  destruct (p x) eqn:Hp; simpl; [reflexivity|].
  now rewrite (H x (or_introl eq_refl) Hp).
Qed.

Lemma section_entries_absent (w section_name header : text) :
  absent_from w header 0 -> section_entries w (section_name, header) = [].
Proof.
  intros H. unfold section_entries. simpl.
  now rewrite (data_rows_no_header _ _ H).
Qed.

(** C8.  When a configured heading stands nowhere in the article, its
    section adds no entry and no entry carries its label, the warning
    for the heading is printed, and the entries are those of the other
    sections, each as it is by itself.  Without the "Disputed
    territories" heading the entries are those of the first three
    sections. *)
Theorem missing_heading :
  (forall (w section_name header : text) (out : list text),
      In (section_name, header) sections ->
      absent_from w header 0 ->
      section_entries w (section_name, header) = [] /\
      (forall e, In e (fst (parse_plate_tables w out)) ->
                 section e <> section_name) /\
      (exists printed,
          snd (parse_plate_tables w out) = out ++ printed /\
          In (warning header) printed) /\
      fst (parse_plate_tables w out)
      = flat_map (section_entries w)
          (filter (fun sec => negb (text_eqb (fst sec) section_name))
             sections)) /\
  (forall (w : text) (out : list text),
      absent_from w "=== Disputed territories ===" 0 ->
      fst (parse_plate_tables w out)
      = classify_rows "countries" (data_rows w "=== Countries ===")
        ++ classify_rows "transcontinental"
             (data_rows w "=== Transcontinental countries ===")
        ++ classify_rows "dependent"
             (data_rows w "=== Dependent territories ===") /\
      In (warning "=== Disputed territories ===")
        (snd (parse_plate_tables w out)) /\
      forall e, In e (fst (parse_plate_tables w out)) ->
                section e <> "disputed").
Proof.
  assert (General :
    forall (w section_name header : text) (out : list text),
      In (section_name, header) sections ->
      absent_from w header 0 ->
      section_entries w (section_name, header) = [] /\
      (forall e, In e (fst (parse_plate_tables w out)) ->
                 section e <> section_name) /\
      (exists printed,
          snd (parse_plate_tables w out) = out ++ printed /\
          In (warning header) printed) /\
      fst (parse_plate_tables w out)
      = flat_map (section_entries w)
          (filter (fun sec => negb (text_eqb (fst sec) section_name))
             sections)).
  { intros w section_name header out Hin Habs.
    pose proof (section_entries_absent w section_name header Habs) as Hnil.
    assert (Hsame : forall sec, In sec sections -> fst sec = section_name ->
                                section_entries w sec = []).
    { intros [n h] Hsec Hn. simpl in Hn. subst n.
      now rewrite (keys_unique _ _ _ _ sections_labels Hsec Hin). }
    rewrite parse_plate_tables_eq. cbn [fst snd].
    split; [exact Hnil|]. split; [|split].
    - intros e He Hlabel. apply in_flat_map in He as (sec & Hsec & He).
      pose proof He as He'. unfold section_entries in He'.
      apply classify_rows_section in He'.
      rewrite (Hsame sec Hsec) in He by congruence. contradiction.
    - eexists. split; [reflexivity|]. apply in_flat_map.
      exists (section_name, header). split; [assumption|].
      simpl. rewrite (warnings_absent _ _ Habs). now left.
    - apply flat_map_filter. intros sec Hsec Hp.
      apply negb_false_iff, text_eqb_true in Hp. now apply Hsame. }
  split; [exact General|].
  intros w out Habs.
  destruct (General w "disputed" "=== Disputed territories ===" out)
    as (_ & Hlabel & (printed & Hout & Hwarn) & Hentries);
    [do 3 right; left; reflexivity | exact Habs |].
  split; [|split].
  - rewrite Hentries.
    replace (filter (fun sec => negb (text_eqb (fst sec) "disputed"))
               sections)
      with (items [("countries", "=== Countries ===");
                   ("transcontinental",
                    "=== Transcontinental countries ===");
                   ("dependent", "=== Dependent territories ===")]%string)
      by evaluate.
    unfold items, section_entries. cbn [map flat_map fst snd].
    now rewrite app_nil_r.
  - rewrite Hout. apply in_or_app. now right.
  - exact Hlabel.
Qed.

Lemma missing_heading_witness :
  absent_from article "=== Disputed territories ===" 0 /\
  map wiki_code (fst (parse_plate_tables article []))
  = [txt "D"; txt "UK"; txt "TR"; txt "GBZ"] /\
  snd (parse_plate_tables article [])
  = [warning "=== Disputed territories ==="] /\
  forall e, In e (fst (parse_plate_tables article [])) ->
            section e <> "disputed".
Proof.
  assert (Habs : absent_from article "=== Disputed territories ===" 0)
    by (apply absent_from_find; evaluate).
  split; [exact Habs|].
  split; [evaluate|].
  split; [evaluate|].
  exact (proj1 (proj2 (proj1 missing_heading article "disputed"
                         "=== Disputed territories ===" []
                         ltac:(do 3 right; left; reflexivity) Habs))).
Defined.

Lemma extracted_entry (w : text) (out : list text) (e : entry) :
  In e (fst (parse_plate_tables w out)) ->
  exists sec row,
    In sec sections /\ In row (data_rows w (snd sec)) /\
    _parse_table_row row (fst sec) = Some e.
Proof.
  rewrite parse_plate_tables_eq. cbn [fst].
  intros He. apply in_flat_map in He as (sec & Hsec & He).
  unfold section_entries, classify_rows in He.
  apply in_flat_map in He as (row & Hrow & He).
  exists sec, row. split; [assumption|]. split; [assumption|].
  destruct (_parse_table_row row (fst sec)) as [e'|]; [|contradiction].
  destruct He as [<- | []]. reflexivity.
Qed.

(** C9.  Every entry of the extraction pass comes from the classifier at
    a row of a table.  Its image reference is [File:] followed by the name
    of a reference of the row, written there behind [[[File:] or
    [[[Image:], with the whitespace at both ends removed; the name is
    not empty and holds neither [|] nor []].  A reference written with
    [Image:] comes out with [File:]. *)
Theorem image_file_form :
  (forall (w : text) (out : list text) (e : entry),
      In e (fst (parse_plate_tables w out)) ->
      exists sec row,
        In sec sections /\ In row (data_rows w (snd sec)) /\
        _parse_table_row row (fst sec) = Some e) /\
  (forall (row sec : text) (e : entry),
      _parse_table_row row sec = Some e ->
      exists pre ns raw post,
        row = pre ++ file_ref ns raw ++ post /\ media_namespace ns /\
        image_file e = "File:" ++ strip raw /\
        (exists l r,
            raw = l ++ strip raw ++ r /\
            forallb is_space l = true /\ forallb is_space r = true) /\
        stops is_space (strip raw) /\ stops is_space (rev (strip raw)) /\
        strip raw <> [] /\
        forallb not_bar_bracket (strip raw) = true) /\
  (forall sec,
      _parse_table_row image_ns_row sec
      = Some {| wiki_code := "F"; iso := "FR"; name := "France";
                image_file := "File:France plate.jpg";
                section := sec |}).
Proof.
  split; [exact extracted_entry | split].
  - intros row sec e He.
    apply parse_table_row_Some in He as (code & x & _ & Hpick & Hx & ->).
    apply pick_example_Some in Hpick as (l1 & raw & l2 & Hrefs & -> & _).
    assert (Hin : In raw (findall_files row))
      by (rewrite Hrefs; apply in_elt).
    apply findall_files_In in Hin
      as (pre & ns & post & Hrow & Hns & _ & Hcls & _).
    destruct (strip_spec raw) as (l & r & E & Hl & Hr & Hhd & Hlast).
    exists pre, ns, raw, post. simpl image_file.
    repeat (split; [solve [eauto]|]). now apply strip_forallb.
  - intros sec. apply parse_table_row_Some. exists "F", "France plate.jpg".
    repeat split; try evaluate. discriminate.
Qed.

Lemma image_file_form_witness :
  exists pre ns raw post,
    image_ns_row = pre ++ file_ref ns raw ++ post /\ media_namespace ns /\
    txt "File:France plate.jpg" = "File:" ++ strip raw /\
    (exists l r,
        raw = l ++ strip raw ++ r /\
        forallb is_space l = true /\ forallb is_space r = true) /\
    stops is_space (strip raw) /\ stops is_space (rev (strip raw)) /\
    strip raw <> [] /\
    forallb not_bar_bracket (strip raw) = true.
Proof.
  apply (proj1 (proj2 image_file_form) image_ns_row "countries"
           {| wiki_code := "F"; iso := "FR"; name := "France";
              image_file := "File:France plate.jpg";
              section := "countries" |}).
  evaluate.
Defined.

(* ================================================================== *)
(** * Further properties of the parsing core *)

(* ------------------------------------------------------------------ *)
(** ** [re.split] loses nothing *)

(** [sep.join(pieces)] *)
Fixpoint join (sep : text) (pieces : list text) : text :=
  match pieces with
  | [] => []
  | [p] => p
  | p :: more => p ++ sep ++ join sep more
  end.

Lemma join_cons (sep p : text) (more : list text) :
  more <> [] -> join sep (p :: more) = p ++ sep ++ join sep more.
Proof. destruct more; [contradiction | reflexivity]. Qed.

Lemma split_rows_from_nonempty (k : nat) (cur s : text) :
  split_rows_from k cur s <> [].
Proof.
  revert k cur; induction s as [|c s IH]; intros k cur; [discriminate|].
  destruct k as [|k]; [|simpl; apply IH].
  rewrite split_rows_from_0.
  destruct (startswith (c :: s) row_separator); [discriminate | apply IH].
Qed.

Lemma split_rows_from_join (k : nat) (cur s : text) :
  join row_separator (split_rows_from k cur s) = rev cur ++ skipn k s.
Proof.
  revert k cur; induction s as [|c s IH]; intros k cur.
  - rewrite skipn_nil, app_nil_r. reflexivity.
  - destruct k as [|k]; [|simpl; apply IH].
    rewrite split_rows_from_0.
    destruct (startswith (c :: s) row_separator) eqn:E.
    + rewrite join_cons by apply split_rows_from_nonempty.
      rewrite IH. apply startswith_true in E as [r E].
      injection E as -> ->. reflexivity.
    + rewrite IH. simpl. now rewrite <- app_assoc.
Qed.

Lemma occurs_at_firstn (s sub : text) (i j : nat) :
  occurs_at (firstn i s) sub j -> occurs_at s sub j.
Proof.
  intros (pre & post & E & Hlen).
  exists pre, (post ++ skipn i s).
  split; [|assumption].
  rewrite <- (firstn_skipn i s) at 1. rewrite E.
  now rewrite <- !app_assoc.
Qed.

Lemma split_rows_pieces_length (n : nat) :
  forall s p j,
    length s <= n -> In p (split_rows s) -> ~ occurs_at p row_separator j.
Proof.
  induction n as [|n IH]; intros s p j Hn Hin.
  - destruct s; [|simpl in Hn; lia].
    destruct Hin as [<- | []]. intros H. apply occurs_at_bound in H.
    simpl in H. lia.
  - destruct (find_spec s row_separator 0) as [[_ Habs] | (i & _ & Hi)].
    + rewrite (split_rows_last _ Habs) in Hin. destruct Hin as [<- | []].
      apply Habs. lia.
    + rewrite (split_rows_first _ _ Hi) in Hin.
      destruct Hi as (_ & Hocc & Hmin).
      pose proof (occurs_at_bound _ _ _ Hocc) as Hb. simpl in Hb.
      destruct Hin as [<- | Hin].
      * intros H. pose proof (occurs_at_bound _ _ _ H) as Hb'.
        rewrite length_firstn in Hb'. simpl in Hb'.
        apply occurs_at_firstn, Hmin in H; lia.
      * apply (IH (skipn (i + length row_separator) s)); [|assumption].
        rewrite length_skipn. simpl. lia.
Qed.

(** X1.  Splitting a table text at the row separators loses nothing:
    joined again with the separator the pieces give the text back, and
    no piece holds a separator; there is always a first piece. *)
Theorem split_rows_round_trip (s : text) :
  join row_separator (split_rows s) = s /\
  (forall p j, In p (split_rows s) -> ~ occurs_at p row_separator j) /\
  split_rows s <> [].
Proof.
  split; [|split].
  - unfold split_rows. now rewrite split_rows_from_join.
  - intros p j. now apply (split_rows_pieces_length (length s)).
  - apply split_rows_from_nonempty.
Qed.

Lemma split_rows_round_trip_witness :
  join row_separator (split_rows countries_table) = countries_table /\
  ~ occurs_at (txt "{| class=wikitable" ++ LF
               :: "! Country !! Code !! Strip !! Example")
      row_separator 18.
Proof.
  destruct (split_rows_round_trip countries_table) as (Hjoin & Hfree & _).
  split; [exact Hjoin|]. apply Hfree. vm_compute. left. reflexivity.
Defined.

(* ------------------------------------------------------------------ *)
(** ** Entries and rows *)

Lemma classify_rows_length (section_name : text) (rows : list text) :
  length (classify_rows section_name rows) <= length rows.
Proof.
  induction rows as [|row rows IH]; simpl; [lia|].
  rewrite length_app.
  destruct (_parse_table_row row section_name); simpl; lia.
Qed.

Lemma flat_map_length_sum (f : text * text -> list entry)
    (g : text * text -> nat) (l : list (text * text)) :
  (forall x, length (f x) <= g x) ->
  length (flat_map f l) <= list_sum (map g l).
Proof.
  intros H. induction l as [|x l IH]; simpl; [lia|].
  rewrite length_app. specialize (H x). lia.
Qed.

(** X2.  A row gives at most one entry: a section has no more entries
    than its table has data rows, and the whole list no more than the
    four tables have together. *)
Theorem one_entry_per_row (w : text) :
  (forall sec, length (section_entries w sec)
               <= length (data_rows w (snd sec))) /\
  (forall out,
      length (fst (parse_plate_tables w out))
      <= list_sum (map (fun sec => length (data_rows w (snd sec)))
                     sections)).
Proof.
  assert (H : forall sec, length (section_entries w sec)
                          <= length (data_rows w (snd sec)))
    by (intros sec; apply classify_rows_length).
  split; [exact H|].
  intros out. rewrite parse_plate_tables_eq. cbn [fst].
  now apply flat_map_length_sum.
Qed.

(** X3.  An article with none of the four headings, the empty article
    among them, gives no entry and prints the four warnings in the order
    of the sections. *)
Theorem no_heading_no_entry (w : text) (out : list text) :
  (forall sec, In sec sections -> absent_from w (snd sec) 0) ->
  parse_plate_tables w out
  = ([], out ++ map (fun sec => warning (snd sec)) sections).
Proof.
  intros Habs. rewrite parse_plate_tables_eq.
  assert (He : forall l, (forall sec, In sec l -> In sec sections) ->
                         flat_map (section_entries w) l = []).
  { induction l as [|[n h] l IH]; intros Hl; [reflexivity|].
    simpl. rewrite IH by (intros sec Hsec; apply Hl; now right).
    rewrite section_entries_absent; [reflexivity|].
    apply (Habs (n, h)), Hl. now left. }
  assert (Hw : forall l, (forall sec, In sec l -> In sec sections) ->
                         flat_map (fun sec => warnings w (snd sec)) l
                         = map (fun sec => warning (snd sec)) l).
  { induction l as [|[n h] l IH]; intros Hl; [reflexivity|].
    simpl. rewrite IH by (intros sec Hsec; apply Hl; now right).
    rewrite warnings_absent; [reflexivity|].
    apply (Habs (n, h)), Hl. now left. }
  now rewrite He, Hw by auto.
Qed.

Lemma no_heading_no_entry_witness :
  parse_plate_tables [] []
  = ([], map (fun sec => warning (snd sec)) sections).
Proof.
  apply (no_heading_no_entry [] []).
  intros sec Hsec j _ Hocc. apply occurs_at_bound in Hocc.
  destruct Hsec as [<- | [<- | [<- | [<- | []]]]]; simpl in Hocc; lia.
Defined.

Lemma get_label_ok (d : dict) (key : text) :
  forallb (fun kv => negb (text_eqb (snd kv) []) && forallb is_AZ (snd kv)) d
  = true ->
  label_ok key -> label_ok (get d key key).
Proof.
  intros Hd Hkey.
  destruct (get_spec d key key) as [Hin | [_ ->]]; [|assumption].
  rewrite forallb_forall in Hd. specialize (Hd _ Hin). simpl in Hd.
  apply andb_true_iff in Hd as [Hne Haz]. split; [|assumption].
  apply negb_true_iff in Hne. intros E. rewrite E in Hne. discriminate.
Qed.

(** X4.  The territory id of every extracted entry is a string of one or
    more uppercase ASCII letters, as its wiki code is, and its section is
    one of the four labels: the table maps uppercase codes to uppercase
    ids and the fallback is the code itself. *)
Theorem entry_ids_uppercase (w : text) (out : list text) (e : entry) :
  In e (fst (parse_plate_tables w out)) ->
  label_ok (wiki_code e) /\ label_ok (iso e) /\
  In (section e) (map fst sections).
Proof.
  intros He. apply extracted_entry in He as (sec & row & Hsec & _ & He).
  apply parse_table_row_Some in He as (code & x & Hc & _ & _ & ->).
  cbn [wiki_code iso section].
  assert (Hl : label_ok code).
  { apply leftmost_code_iff in Hc
      as (i & (pre & place & post & _ & _ & _ & Hl) & _). exact Hl. }
  split; [exact Hl|]. split.
  - apply get_label_ok; [evaluate | exact Hl].
  - now apply in_map.
Qed.

Lemma entry_ids_uppercase_witness :
  label_ok (txt "DE") /\ In (txt "countries") (map fst sections).
Proof.
  apply (entry_ids_uppercase article []
           {| wiki_code := "D"; iso := "DE"; name := "Germany";
              image_file := "File:Germany_license_plate.jpg";
              section := "countries" |}).
  vm_compute. left. reflexivity.
Defined.

(* ------------------------------------------------------------------ *)
(** ** A section without a table of its own *)

Lemma find_across_gap (w sub : text) (p1 p2 : nat) :
  p1 <= p2 ->
  (forall j, p1 <= j -> j < p2 -> ~ occurs_at w sub j) ->
  find w sub (Z.of_nat p1) = find w sub (Z.of_nat p2).
Proof.
  intros Hle Hgap.
  destruct (find_spec w sub p2) as [[E Habs] | (i & E & Hi)]; rewrite E.
  - apply find_absent. intros j Hj.
    destruct (Nat.lt_ge_cases j p2); [now apply Hgap | now apply Habs].
  - apply find_first. destruct Hi as (Hpi & Hocc & Hmin).
    split; [lia|]. split; [assumption|].
    intros j Hj Hoj. apply Hmin; [|assumption].
    destruct (Nat.lt_ge_cases j p2) as [Hlt|]; [|assumption].
    now destruct (Hgap j Hj Hlt).
Qed.

Lemma classify_rows_images (n1 n2 : text) (rows : list text) :
  map (fun e => (wiki_code e, iso e, name e, image_file e))
    (classify_rows n1 rows)
  = map (fun e => (wiki_code e, iso e, name e, image_file e))
      (classify_rows n2 rows).
Proof.
  induction rows as [|row rows IH]; [reflexivity|].
  unfold classify_rows in *. simpl. rewrite !map_app, IH. f_equal.
  unfold _parse_table_row. destruct (search_code row); [|reflexivity].
  destruct (findall_files row) as [|f fs]; [reflexivity|].
  now destruct (pick_example (f :: fs)) as [[|c x]|].
Qed.

(** X5.  The table of a section is the first one at or after its
    heading, whichever section it was written for: when no table opens
    between two headings, the section of the earlier heading reads the
    rows of the later one, and both sections give the same entries up to
    the section label. *)
Theorem table_taken_from_next_section
    (w n1 h1 n2 h2 : text) (p1 p2 : nat) :
  first_from w h1 0 p1 ->
  first_from w h2 0 p2 ->
  p1 <= p2 ->
  (forall j, p1 <= j -> j < p2 -> ~ occurs_at w "{|" j) ->
  data_rows w h1 = data_rows w h2 /\
  map (fun e => (wiki_code e, iso e, name e, image_file e))
    (section_entries w (n1, h1))
  = map (fun e => (wiki_code e, iso e, name e, image_file e))
      (section_entries w (n2, h2)).
Proof.
  intros H1 H2 Hle Hgap.
  assert (E : data_rows w h1 = data_rows w h2).
  { unfold data_rows.
    rewrite (find_header _ _ _ H1), (find_header _ _ _ H2), !not_minus_one.
    now rewrite (find_across_gap w "{|" p1 p2 Hle Hgap). }
  split; [exact E|].
  unfold section_entries. cbn [fst snd]. rewrite E.
  apply classify_rows_images.
Qed.

(** An article whose "Countries" heading is followed at once by the
    "Transcontinental countries" heading and its table. *)
Definition article_without_table : text :=
  "=== Countries ===" ++ LF :: "=== Transcontinental countries ===" ++ LF
  :: transcontinental_table.

Lemma table_taken_from_next_section_witness :
  map (fun e => (wiki_code e, section e))
    (fst (parse_plate_tables article_without_table []))
  = [(txt "TR", txt "countries"); (txt "TR", txt "transcontinental")] /\
  data_rows article_without_table "=== Countries ==="
  = data_rows article_without_table "=== Transcontinental countries ===".
Proof.
  split; [evaluate|].
  apply (table_taken_from_next_section article_without_table
           "countries" "=== Countries ==="
           "transcontinental" "=== Transcontinental countries ===" 0 18).
  - apply first_from_find. evaluate.
  - apply first_from_find. evaluate.
  - lia.
  - intros j _ Hj.
    assert (H : first_from article_without_table "{|" 0 53)
      by (apply first_from_find; evaluate).
    intros Hocc. destruct H as (_ & _ & Hmin).
    specialize (Hmin j (Nat.le_0_l j) Hocc). lia.
Defined.

(* ================================================================== *)
(** * Utilities: [strip_html] and [mime_to_ext] *)

(* ------------------------------------------------------------------ *)
(** ** Tag removal *)

(** [[^>]] *)
Definition not_gt (c : ascii) : bool := negb (Ascii.eqb c ">").

(** [<[^>]+>] anchored at the head of [s]: the text after the match.
    The run is greedy and the class shuts out [>], so the match ends at
    the first [>] behind the [<], if one or more characters lie
    between. *)
Definition match_tag_at (s : text) : option text :=
  r0 <- literal "<" s ;;
  pr <- plus not_gt r0 ;;
  literal ">" (snd pr).

(** [re.sub(r"<[^>]+>", "", s)]: the matches, taken left to right
    without overlap, are left out; [skip] counts the characters of the
    current match still to pass. *)
Fixpoint sub_tags_from (skip : nat) (s : text) : text :=
  match s with
  | [] => []
  | c :: s' =>
      match skip with
      | S k => sub_tags_from k s'
      | O =>
          match match_tag_at s with
          | Some rest => sub_tags_from (length s' - length rest) s'
          | None => c :: sub_tags_from 0 s'
          end
      end
  end.

Definition sub_tags (s : text) : text := sub_tags_from 0 s.

Section StripHtml.

(** [html.unescape], of the standard library, is a parameter. *)
Variable unescape : text -> text.

(** [unescape(re.sub(r"<[^>]+>", "", html_str)).strip()] *)
Definition strip_html (html_str : text) : text :=
  strip (unescape (sub_tags html_str)).

End StripHtml.

(** A tag: [<], one or more characters other than [>], and [>]. *)
Definition tag (body : text) : text := "<" ++ body ++ ">".

Definition tag_body (body : text) : Prop :=
  body <> [] /\ forallb not_gt body = true.

Lemma match_tag_at_Some (s rest : text) :
  match_tag_at s = Some rest <->
  exists body, s = tag body ++ rest /\ tag_body body.
Proof.
  unfold match_tag_at, tag, tag_body. split.
  - destruct (literal "<" s) as [r0|] eqn:H0; [|discriminate].
    apply literal_Some in H0. subst s.
    destruct (plus not_gt r0) as [[body r1]|] eqn:H1; [|discriminate].
    apply plus_Some in H1 as (-> & Hne & Hall & _).
    cbn [snd]. intros H2. apply literal_Some in H2. subst r1.
    exists body. rewrite <- !app_assoc. auto.
  - intros (body & -> & Hne & Hall). rewrite <- !app_assoc, literal_app.
    assert (Hp : plus not_gt (body ++ ">" ++ rest)
                 = Some (body, ">" ++ rest))
      by (apply plus_Some; repeat split; auto).
    rewrite Hp. cbn [snd]. apply literal_app.
Qed.

Lemma match_tag_at_consumes (s rest : text) :
  match_tag_at s = Some rest -> exists c m, s = c :: m ++ rest.
Proof.
  intros H. apply match_tag_at_Some in H as (body & -> & _).
  exists "<"%char, (body ++ ">"). unfold tag. simpl.
  now rewrite <- !app_assoc.
Qed.

Lemma sub_tags_from_skipn (k : nat) (s : text) :
  sub_tags_from k s = sub_tags (skipn k s).
Proof.
  revert k; induction s as [|c s IH]; intros [|k]; try reflexivity.
  simpl. apply IH.
Qed.

(** A tag is left out and the scan resumes behind it. *)
Lemma sub_tags_match (s rest : text) :
  match_tag_at s = Some rest -> sub_tags s = sub_tags rest.
Proof.
  intros H. destruct (match_tag_at_consumes _ _ H) as (c & m & E).
  subst s. unfold sub_tags at 1. simpl sub_tags_from.
  rewrite H, sub_tags_from_skipn. f_equal.
  rewrite length_app, Nat.add_sub, skipn_app, skipn_all, Nat.sub_diag.
  reflexivity.
Qed.

(** Any other character is kept. *)
Lemma sub_tags_pass (c : ascii) (s : text) :
  match_tag_at (c :: s) = None -> sub_tags (c :: s) = c :: sub_tags s.
Proof.
  intros H. unfold sub_tags at 1. simpl sub_tags_from. now rewrite H.
Qed.

Lemma literal_other (a : ascii) (p : text) (c : ascii) (s : text) :
  Ascii.eqb c a = false -> literal (a :: p) (c :: s) = None.
Proof. intros H. cbn [literal]. now rewrite Ascii.eqb_sym, H. Qed.

Lemma match_tag_at_other (c : ascii) (s : text) :
  Ascii.eqb c "<" = false -> match_tag_at (c :: s) = None.
Proof.
  intros H. unfold match_tag_at.
  replace (literal "<" (c :: s)) with (@None text); [reflexivity|].
  symmetry. exact (literal_other "<" [] c s H).
Qed.

Lemma match_tag_at_no_close (s : text) :
  forallb not_gt s = true -> match_tag_at s = None.
Proof.
  intros H. destruct (match_tag_at s) as [rest|] eqn:E; [|reflexivity].
  apply match_tag_at_Some in E as (body & -> & _). unfold tag in H.
  rewrite <- !app_assoc, !forallb_app in H.
  apply andb_true_iff in H as [_ H]. apply andb_true_iff in H as [_ H].
  discriminate.
Qed.

Lemma not_gt_false (c : ascii) : not_gt c = false -> c = ">"%char.
Proof.
  unfold not_gt. intros H. apply negb_false_iff in H.
  now apply Ascii.eqb_eq.
Qed.

(** Where an opening bracket opens no tag, it is followed by [>] or no
    [>] follows at all. *)
Lemma unmatched_open (s : text) :
  match_tag_at ("<"%char :: s) = None ->
  forallb not_gt s = true \/ exists s', s = ">"%char :: s'.
Proof.
  unfold match_tag_at. change (literal "<" ("<"%char :: s)) with (Some s).
  unfold plus.
  pose proof (span_app not_gt s) as Happ.
  pose proof (span_forallb not_gt s) as Hall.
  pose proof (span_stops not_gt s) as Hst.
  destruct (span not_gt s) as [run rest]. cbn [fst snd] in *.
  destruct rest as [|x rest].
  - intros _. left. rewrite Happ, app_nil_r. exact Hall.
  - simpl in Hst. apply not_gt_false in Hst. subst x.
    destruct run as [|r run].
    + intros _. right. exists rest. exact Happ.
    + cbn [snd]. simpl. discriminate.
Qed.

Definition no_lt (s : text) : Prop :=
  forallb (fun c => negb (Ascii.eqb c "<")) s = true.

Lemma sub_tags_plain_prefix (a s : text) :
  no_lt a -> sub_tags (a ++ s) = a ++ sub_tags s.
Proof.
  unfold no_lt. induction a as [|c a IH]; simpl; [reflexivity|].
  intros H. apply andb_true_iff in H as [Hc Ha].
  apply negb_true_iff in Hc.
  rewrite sub_tags_pass by now apply match_tag_at_other.
  now rewrite IH.
Qed.

Lemma sub_tags_no_close (s : text) :
  forallb not_gt s = true -> sub_tags s = s.
Proof.
  induction s as [|c s IH]; [reflexivity|].
  intros H. rewrite sub_tags_pass by now apply match_tag_at_no_close.
  simpl in H. apply andb_true_iff in H as [_ H]. now rewrite IH.
Qed.

Lemma sub_tags_no_open (s : text) : no_lt s -> sub_tags s = s.
Proof.
  intros H. rewrite <- (app_nil_r s) at 1.
  rewrite sub_tags_plain_prefix by assumption. apply app_nil_r.
Qed.

(** X6.  Text with no [<], or with no [>], passes the tag removal
    unchanged: an opening bracket that is never closed is not a tag. *)
Theorem sub_tags_plain (s : text) :
  no_lt s \/ forallb not_gt s = true -> sub_tags s = s.
Proof.
  intros [H | H]; [now apply sub_tags_no_open | now apply sub_tags_no_close].
Qed.

Lemma sub_tags_plain_witness :
  sub_tags "Bundesrepublik < 3 Deutschland" = "Bundesrepublik < 3 Deutschland".
Proof.
  apply (sub_tags_plain "Bundesrepublik < 3 Deutschland").
  right. reflexivity.
Defined.

(** X7.  The first tag of a text is cut out whole, the text before it
    is kept and the removal goes on behind it; the body of a tag may
    itself hold [<].  The empty pair [<>] is not a tag and stays. *)
Theorem sub_tags_first_tag :
  (forall a body b : text,
      no_lt a -> tag_body body ->
      sub_tags (a ++ tag body ++ b) = a ++ sub_tags b) /\
  (forall b : text, sub_tags ("<>" ++ b) = "<>" ++ sub_tags b).
Proof.
  split.
  - intros a body b Ha Hbody. rewrite sub_tags_plain_prefix by assumption.
    f_equal. apply sub_tags_match, match_tag_at_Some. now exists body.
  - intros b. change ("<>" ++ b) with ("<"%char :: ">"%char :: b).
    rewrite sub_tags_pass by reflexivity.
    now rewrite sub_tags_pass by reflexivity.
Qed.

Lemma sub_tags_first_tag_witness :
  sub_tags "Photo by <a href=x>Jo <b</a> (2019)" = "Photo by Jo  (2019)".
Proof.
  change (sub_tags ("Photo by " ++ tag "a href=x" ++ "Jo <b</a> (2019)")
          = "Photo by Jo  (2019)").
  rewrite (proj1 sub_tags_first_tag "Photo by " "a href=x"
             "Jo <b</a> (2019)"
             ltac:(reflexivity)
             ltac:(split; [discriminate | reflexivity])).
  evaluate.
Defined.

(** No tag begins anywhere in [t]. *)
Fixpoint tag_free (t : text) : Prop :=
  match t with
  | [] => True
  | c :: t' => match_tag_at (c :: t') = None /\ tag_free t'
  end.

Lemma tag_free_fixed (t : text) : tag_free t -> sub_tags t = t.
Proof.
  induction t as [|c t IH]; [reflexivity|].
  intros [Hc Ht]. rewrite sub_tags_pass by assumption. now rewrite IH.
Qed.

Lemma tag_free_app (pre t : text) : tag_free (pre ++ t) -> tag_free t.
Proof.
  induction pre as [|c pre IH]; [auto|]. intros [_ H]. auto.
Qed.

Lemma sub_tags_tag_free (n : nat) :
  forall s, length s <= n -> tag_free (sub_tags s).
Proof.
  induction n as [|n IH]; intros s Hn.
  - destruct s; [exact I | simpl in Hn; lia].
  - destruct s as [|c s]; [exact I|].
    simpl in Hn.
    destruct (match_tag_at (c :: s)) as [rest|] eqn:Hm.
    + rewrite (sub_tags_match _ _ Hm).
      destruct (match_tag_at_consumes _ _ Hm) as (c' & m & E).
      apply IH. injection E as _ ->. rewrite length_app in Hn. lia.
    + rewrite (sub_tags_pass _ _ Hm). split; [|apply IH; lia].
      destruct (Ascii.eqb c "<") eqn:Hc;
        [|now apply match_tag_at_other].
      apply Ascii.eqb_eq in Hc. subst c.
      destruct (unmatched_open s Hm) as [Hs | [s' ->]].
      * now rewrite (sub_tags_no_close s Hs).
      * rewrite sub_tags_pass by reflexivity. reflexivity.
Qed.

Lemma sub_tags_from_length (k : nat) (s : text) :
  length (sub_tags_from k s) <= length s.
Proof.
  revert k; induction s as [|c s IH]; intros k; simpl; [lia|].
  destruct k as [|k]; [|specialize (IH k); lia].
  destruct (match_tag_at (c :: s)).
  - specialize (IH (length s - length t)). lia.
  - simpl. specialize (IH 0). lia.
Qed.

(** X8.  After the removal no tag is left, so removing again changes
    nothing; the result is never longer than the text. *)
Theorem sub_tags_idempotent (s : text) :
  sub_tags (sub_tags s) = sub_tags s /\
  (forall pre body post,
      tag_body body -> sub_tags s <> pre ++ tag body ++ post) /\
  length (sub_tags s) <= length s.
Proof.
  pose proof (sub_tags_tag_free (length s) s (Nat.le_refl _)) as Hfree.
  split; [now apply tag_free_fixed|]. split.
  - intros pre body post Hbody E. rewrite E in Hfree.
    apply tag_free_app in Hfree.
    assert (Hm : match_tag_at (tag body ++ post) = Some post)
      by (apply match_tag_at_Some; now exists body).
    unfold tag in Hfree, Hm. simpl in Hfree, Hm.
    destruct Hfree as [Hnone _]. congruence.
  - apply sub_tags_from_length.
Qed.

Lemma sub_tags_idempotent_witness :
  sub_tags "Jo <i>Doe</i>" <> "Jo " ++ tag "i" ++ "Doe</i>".
Proof.
  apply (proj1 (proj2 (sub_tags_idempotent "Jo <i>Doe</i>"))
           "Jo " "i" "Doe</i>").
  split; [discriminate | reflexivity].
Defined.

(** X9.  Whatever the entities unescape to, [strip_html] returns text
    that neither begins nor ends with whitespace; on text without [<]
    it is the unescaped text stripped. *)
Theorem strip_html_trimmed (unescape : text -> text) (html_str : text) :
  stops is_space (strip_html unescape html_str) /\
  stops is_space (rev (strip_html unescape html_str)) /\
  (no_lt html_str ->
   strip_html unescape html_str = strip (unescape html_str)).
Proof.
  unfold strip_html.
  destruct (strip_spec (unescape (sub_tags html_str)))
    as (l & r & _ & _ & _ & Hhd & Hlast).
  split; [exact Hhd|]. split; [exact Hlast|].
  intros H. now rewrite (sub_tags_no_open html_str H).
Qed.

Lemma strip_html_trimmed_witness :
  strip_html (fun s => s) "  Jo  " = strip "  Jo  ".
Proof.
  apply (strip_html_trimmed (fun s => s) "  Jo  ").
  reflexivity.
Defined.

(* ------------------------------------------------------------------ *)
(** ** [mime_to_ext] *)

Definition mime_exts : dict := items [
  ("image/jpeg", ".jpg");
  ("image/png", ".png");
  ("image/svg+xml", ".svg");
  ("image/gif", ".gif");
  ("image/tiff", ".tiff");
  ("image/webp", ".webp")
]%string.

Definition mime_to_ext (mime : text) : text := get mime_exts mime ".jpg".

(** X10.  [mime_to_ext] always gives one of six extensions, each a dot
    and a name, and it gives [.jpg] for every MIME type that is not a
    key of its table. *)
Theorem mime_to_ext_range (mime : text) :
  In (mime_to_ext mime)
    (map txt [".jpg"; ".png"; ".svg"; ".gif"; ".tiff"; ".webp"]%string) /\
  (exists stem, mime_to_ext mime = "." ++ stem /\ stem <> []) /\
  ((forall ext, ~ In (mime, ext) mime_exts) -> mime_to_ext mime = ".jpg").
Proof.
  unfold mime_to_ext.
  assert (Hin : In (get mime_exts mime ".jpg")
                  (map txt [".jpg"; ".png"; ".svg"; ".gif"; ".tiff";
                            ".webp"]%string)).
  { destruct (get_spec mime_exts mime ".jpg") as [H | [_ ->]].
    - apply (in_map snd) in H. exact H.
    - now left. }
  split; [exact Hin|]. split.
  - destruct Hin as [<- | [<- | [<- | [<- | [<- | [<- | []]]]]]];
      eexists; (split; [reflexivity | discriminate]).
  - intros Hmiss.
    destruct (get_spec mime_exts mime ".jpg") as [H | [_ E]];
      [now destruct (Hmiss _ H) | exact E].
Qed.

Lemma mime_to_ext_range_witness : mime_to_ext "image/bmp" = ".jpg".
Proof.
  apply (mime_to_ext_range "image/bmp").
  intros ext H. vm_compute in H.
  repeat (destruct H as [H | H]; [discriminate|]). exact H.
Defined.

(* ================================================================== *)
(** * [get_image_info]: reading the answer of the Commons API *)

(** A value decoded from JSON, as [resp.json()] returns it.  A float is
    kept as its literal: the code only passes numbers on.  The items of
    a dict are in insertion order and their keys are distinct. *)
Unset Elimination Schemes.
Inductive json : Type :=
| JNull
| JBool (b : bool)
| JInt (n : Z)
| JFloat (literal : text)
| JStr (s : text)
| JList (elements : list json)
| JDict (fields : list (text * json)).
Set Elimination Schemes.

(** The exceptions the function can raise on a decoded value. *)
Inductive exn : Type :=
| AttributeError
| IndexError
| KeyError
| TypeError.

Inductive result (A : Type) : Type :=
| Return (a : A)
| Raise (e : exn).

Arguments Return {A} a.
Arguments Raise {A} e.

Notation "x <-! e ;; k" :=
  (match e with Return x => k | Raise err => Raise err end)
  (at level 61, e at next level, right associativity).

Fixpoint lookup (fields : list (text * json)) (key : text) : option json :=
  match fields with
  | [] => None
  | (k, v) :: more => if text_eqb k key then Some v else lookup more key
  end.

(** [x.get(key, default)]: only a dict has [get]. *)
Definition py_get (x : json) (key : text) (default : json) : result json :=
  match x with
  | JDict fields =>
      Return match lookup fields key with
             | Some v => v
             | None => default
             end
  | _ => Raise AttributeError
  end.

(** [x.items()]: only a dict has [items]. *)
Definition py_items (x : json) : result (list (text * json)) :=
  match x with
  | JDict fields => Return fields
  | _ => Raise AttributeError
  end.

(** [x[0]]: the first element of a list or the first character of a
    string, [IndexError] when there is none; a dict has string keys, so
    [0] is a [KeyError]; the other values cannot be subscripted. *)
Definition py_first (x : json) : result json :=
  match x with
  | JList (v :: _) => Return v
  | JList [] => Raise IndexError
  | JStr (c :: _) => Return (JStr [c])
  | JStr [] => Raise IndexError
  | JDict _ => Raise KeyError
  | JNull | JBool _ | JInt _ | JFloat _ => Raise TypeError
  end.

(** The dict [get_image_info] returns. *)
Record image_info := mk_image_info {
  url : json;
  descriptionurl : json;
  width : json;
  height : json;
  mime : json;
  license : json;
  artist : json;
  description : json;
  credit : json;
  attribution_required : json;
  restrictions : json
}.

(** [ext.get(key, {}).get("value", default)] *)
Definition ext_value (ext : json) (key : text) (default : json)
  : result json :=
  item <-! py_get ext key (JDict []) ;;
  py_get item "value" default.

(** [get_image_info] from the answer [data] of its [_api_get] call on:
    the loop over [pages.items()] returns in its first turn, and [None]
    is returned when there is no turn. *)
Definition get_image_info (data : json) : result (option image_info) :=
  query <-! py_get data "query" (JDict []) ;;
  pages <-! py_get query "pages" (JDict []) ;;
  page_items <-! py_items pages ;;
  match page_items with
  | [] => Return None
  | (page_id, page_data) :: _ =>
      if text_eqb page_id "-1" then Return None
      else
        imageinfo <-! py_get page_data "imageinfo" (JList [JDict []]) ;;
        info <-! py_first imageinfo ;;
        ext <-! py_get info "extmetadata" (JDict []) ;;
        v_url <-! py_get info "url" JNull ;;
        v_descriptionurl <-! py_get info "descriptionurl" JNull ;;
        v_width <-! py_get info "width" (JInt 0) ;;
        v_height <-! py_get info "height" (JInt 0) ;;
        v_mime <-! py_get info "mime" (JStr "") ;;
        v_license <-! ext_value ext "LicenseShortName" (JStr "Unknown") ;;
        v_artist <-! ext_value ext "Artist" (JStr "Unknown") ;;
        v_description <-! ext_value ext "ImageDescription" (JStr "") ;;
        v_credit <-! ext_value ext "Credit" (JStr "") ;;
        v_attribution <-! ext_value ext "AttributionRequired" (JStr "") ;;
        v_restrictions <-! ext_value ext "Restrictions" (JStr "") ;;
        Return (Some {| url := v_url;
                        descriptionurl := v_descriptionurl;
                        width := v_width;
                        height := v_height;
                        mime := v_mime;
                        license := v_license;
                        artist := v_artist;
                        description := v_description;
                        credit := v_credit;
                        attribution_required := v_attribution;
                        restrictions := v_restrictions |})
  end.

(** An answer of the usual shape, around the items of [pages]. *)
Definition response (pages : list (text * json)) : json :=
  JDict [(txt "batchcomplete", JStr "");
         (txt "query", JDict [(txt "pages", JDict pages)])].

Definition demo_page : json :=
  JDict [(txt "title", JStr "File:Germany license plate.jpg");
         (txt "imageinfo",
          JList [JDict [(txt "url", JStr "https://upload.example/plate.jpg");
                        (txt "width", JInt 520);
                        (txt "height", JInt 110);
                        (txt "mime", JStr "image/jpeg");
                        (txt "extmetadata",
                         JDict [(txt "LicenseShortName",
                                 JDict [(txt "value", JStr "CC0")])])]])].

(** The items of [pages] the loop runs over. *)
Definition response_pages (data : json) : result (list (text * json)) :=
  query <-! py_get data "query" (JDict []) ;;
  pages <-! py_get query "pages" (JDict []) ;;
  py_items pages.

Definition or_default (o : option json) (default : json) : json :=
  match o with
  | Some v => v
  | None => default
  end.

Lemma text_eqb_false (a b : text) : a <> b -> text_eqb a b = false.
Proof.
  intros H. unfold text_eqb. now destruct (text_eq_dec a b).
Qed.

Lemma get_image_info_pages (data : json) (pages : list (text * json)) :
  response_pages data = Return pages ->
  get_image_info data = get_image_info (response pages).
Proof.
  unfold response_pages, get_image_info.
  destruct (py_get data "query" (JDict [])) as [query|]; [|discriminate].
  destruct (py_get query "pages" (JDict [])) as [p|]; [|discriminate].
  destruct (py_items p) as [its|]; [|discriminate].
  intros [= ->]. reflexivity.
Qed.

(** X11.  No page, no image: the function returns [None], without an
    error, when the answer is a dict without ["query"], when the query
    has no ["pages"], when [pages] is empty, and when the first page has
    the id ["-1"], whatever that page and the later ones hold. *)
Theorem get_image_info_not_found :
  (forall fields, lookup fields "query" = None ->
                  get_image_info (JDict fields) = Return None) /\
  (forall fields query_fields,
      lookup fields "query" = Some (JDict query_fields) ->
      lookup query_fields "pages" = None ->
      get_image_info (JDict fields) = Return None) /\
  (forall data, response_pages data = Return [] ->
                get_image_info data = Return None) /\
  (forall data page_data later,
      response_pages data = Return ((txt "-1", page_data) :: later) ->
      get_image_info data = Return None).
Proof.
  split; [|split; [|split]].
  - intros fields H. unfold get_image_info. cbn [py_get]. now rewrite H.
  - intros fields qf Hq Hp. unfold get_image_info. cbn [py_get].
    rewrite Hq. cbn [py_get]. now rewrite Hp.
  - intros data H. now rewrite (get_image_info_pages _ _ H).
  - intros data pd later H. now rewrite (get_image_info_pages _ _ H).
Qed.

Lemma get_image_info_not_found_witness :
  get_image_info (response [(txt "-1", demo_page)]) = Return None /\
  get_image_info (JDict []) = Return None.
Proof.
  split.
  - apply (proj2 (proj2 (proj2 get_image_info_not_found))
             (response [(txt "-1", demo_page)]) demo_page []).
    reflexivity.
  - apply (proj1 get_image_info_not_found []). reflexivity.
Defined.

(** X12.  Only the first page of the answer is read: the later pages
    change neither the result nor whether an error is raised. *)
Theorem get_image_info_first_page
    (data : json) (page : text * json) (later : list (text * json)) :
  response_pages data = Return (page :: later) ->
  get_image_info data = get_image_info (response [page]).
Proof.
  intros H. rewrite (get_image_info_pages _ _ H).
  destruct page as [page_id page_data]. reflexivity.
Qed.

Lemma get_image_info_first_page_witness :
  get_image_info (response [(txt "7", demo_page); (txt "-1", JNull)])
  = get_image_info (response [(txt "7", demo_page)]).
Proof.
  apply (get_image_info_first_page
           (response [(txt "7", demo_page); (txt "-1", JNull)])
           (txt "7", demo_page) [(txt "-1", JNull)]).
  reflexivity.
Defined.

(** What the first turn of the loop returns for a page that is found. *)
Definition page_info (page_data : json) : result (option image_info) :=
  imageinfo <-! py_get page_data "imageinfo" (JList [JDict []]) ;;
  info <-! py_first imageinfo ;;
  ext <-! py_get info "extmetadata" (JDict []) ;;
  v_url <-! py_get info "url" JNull ;;
  v_descriptionurl <-! py_get info "descriptionurl" JNull ;;
  v_width <-! py_get info "width" (JInt 0) ;;
  v_height <-! py_get info "height" (JInt 0) ;;
  v_mime <-! py_get info "mime" (JStr "") ;;
  v_license <-! ext_value ext "LicenseShortName" (JStr "Unknown") ;;
  v_artist <-! ext_value ext "Artist" (JStr "Unknown") ;;
  v_description <-! ext_value ext "ImageDescription" (JStr "") ;;
  v_credit <-! ext_value ext "Credit" (JStr "") ;;
  v_attribution <-! ext_value ext "AttributionRequired" (JStr "") ;;
  v_restrictions <-! ext_value ext "Restrictions" (JStr "") ;;
  Return (Some (mk_image_info v_url v_descriptionurl v_width v_height
                  v_mime v_license v_artist v_description v_credit
                  v_attribution v_restrictions)).

Lemma get_image_info_found (data : json) (page_id : text)
    (page_data : json) (later : list (text * json)) :
  response_pages data = Return ((page_id, page_data) :: later) ->
  page_id <> "-1" ->
  get_image_info data = page_info page_data.
Proof.
  intros Hpages Hid. rewrite (get_image_info_pages _ _ Hpages).
  change (get_image_info (response ((page_id, page_data) :: later)))
    with (if text_eqb page_id "-1" then Return None
          else page_info page_data).
  now rewrite (text_eqb_false _ _ Hid).
Qed.







Definition is_dict (v : json) : bool :=
  match v with
  | JDict _ => true
  | _ => false
  end.

(** The record of a page about which nothing is known. *)
Definition blank_info : image_info :=
  {| url := JNull;
     descriptionurl := JNull;
     width := JInt 0;
     height := JInt 0;
     mime := JStr "";
     license := JStr "Unknown";
     artist := JStr "Unknown";
     description := JStr "";
     credit := JStr "";
     attribution_required := JStr "";
     restrictions := JStr "" |}.

(** X14.  A first page with another id than ["-1"] counts as found even
    without ["imageinfo"]: the result is then a record with no URL.  An
    empty ["imageinfo"] list raises [IndexError]; a page that is not a
    dict, or an ["imageinfo"] list that begins with another value than
    a dict, raises [AttributeError]. *)
Theorem get_image_info_imageinfo
    (data : json) (page_id : text) (page_data : json)
    (later : list (text * json)) :
  response_pages data = Return ((page_id, page_data) :: later) ->
  page_id <> "-1" ->
  (forall page_fields,
      page_data = JDict page_fields ->
      lookup page_fields "imageinfo" = None ->
      get_image_info data = Return (Some blank_info)) /\
  (forall page_fields,
      page_data = JDict page_fields ->
      lookup page_fields "imageinfo" = Some (JList []) ->
      get_image_info data = Raise IndexError) /\
  (forall page_fields v more,
      page_data = JDict page_fields ->
      lookup page_fields "imageinfo" = Some (JList (v :: more)) ->
      is_dict v = false ->
      get_image_info data = Raise AttributeError) /\
  (is_dict page_data = false ->
   get_image_info data = Raise AttributeError).
Proof.
  intros Hpages Hid. rewrite (get_image_info_found _ _ _ _ Hpages Hid).
  unfold page_info. split; [|split; [|split]].
  - intros pf -> H. cbn [py_get]. rewrite H. reflexivity.
  - intros pf -> H. cbn [py_get]. rewrite H. reflexivity.
  - intros pf v more -> H Hv. cbn [py_get]. rewrite H.
    cbn [py_first]. now destruct v.
  - intros Hpd. now destruct page_data.
Qed.

Lemma get_image_info_imageinfo_witness :
  get_image_info
    (response [(txt "7", JDict [(txt "title", JStr "File:Lost.jpg")])])
  = Return (Some blank_info) /\
  get_image_info
    (response [(txt "7", JDict [(txt "imageinfo", JList [])])])
  = Raise IndexError.
Proof.
  split.
  - apply (proj1 (get_image_info_imageinfo
                    (response [(txt "7",
                                JDict [(txt "title", JStr "File:Lost.jpg")])])
                    "7" (JDict [(txt "title", JStr "File:Lost.jpg")]) []
                    eq_refl ltac:(discriminate))
             [(txt "title", JStr "File:Lost.jpg")] eq_refl eq_refl).
  - apply (proj1 (proj2 (get_image_info_imageinfo
                    (response [(txt "7",
                                JDict [(txt "imageinfo", JList [])])])
                    "7" (JDict [(txt "imageinfo", JList [])]) []
                    eq_refl ltac:(discriminate)))
             [(txt "imageinfo", JList [])] eq_refl eq_refl).
Defined.

(* ================================================================== *)
(** * The bookkeeping of [main] *)

(** A dict with string keys whose values are JSON-like, as
    [process_entry] returns it. *)
Definition record := list (text * json).

(** [d[key] = value]: the value of a key that is there is replaced in
    place, a new key goes to the end. *)
Fixpoint dict_set {V : Type} (d : list (text * V)) (key : text) (value : V)
  : list (text * V) :=
  match d with
  | [] => [(key, value)]
  | (k, v) :: d' =>
      if text_eqb k key then (k, value) :: d'
      else (k, v) :: dict_set d' key value
  end.

(** [result.get("status") in ("success", "success_dry")] *)
Definition succeeded (result : record) : bool :=
  match lookup result "status" with
  | Some (JStr s) => text_eqb s "success" || text_eqb s "success_dry"
  | _ => false
  end.

(** What the loop of [main] keeps: [metadata["entries"]],
    [log_results], and the states of [metadata["entries"]] that were
    dumped to [wiki_plates.json], oldest first. *)
Record books := mk_books {
  metadata_entries : list (text * record);
  log_results : list (text * record);
  dumped : list (list (text * record))
}.

Definition no_books : books :=
  {| metadata_entries := []; log_results := []; dumped := [] |}.

(** The body of the loop behind the call of [process_entry]. *)
Definition record_result (dry_run : bool) (e : entry) (result : record)
    (b : books) : books :=
  let b1 :=
    if succeeded result then
      {| metadata_entries := dict_set (metadata_entries b) (iso e) result;
         log_results :=
           dict_set (log_results b) (iso e)
             [(txt "status", or_default (lookup result "status") JNull);
              (txt "image_file", JStr (image_file e))];
         dumped := dumped b |}
    else
      {| metadata_entries := metadata_entries b;
         log_results := dict_set (log_results b) (iso e) result;
         dumped := dumped b |}
  in
  if negb dry_run
  then {| metadata_entries := metadata_entries b1;
          log_results := log_results b1;
          dumped := dumped b1 ++ [metadata_entries b1] |}
  else b1.

(** ["success" in v] for the value [v] of a status. *)
Definition has_success (v : json) : result bool :=
  match v with
  | JStr s => Return (contains s "success")
  | JList elements =>
      Return (existsb (fun x => match x with
                                | JStr s => text_eqb s "success"
                                | _ => false
                                end) elements)
  | JDict fields =>
      Return (existsb (fun kv => text_eqb (fst kv) "success") fields)
  | JNull | JBool _ | JInt _ | JFloat _ => Raise TypeError
  end.

(** [sum(1 for r in log_results.values()
         if "success" in r.get("status", ""))] *)
Fixpoint count_successful (log : list (text * record)) : result nat :=
  match log with
  | [] => Return 0
  | (_, r) :: more =>
      hit <-! has_success (or_default (lookup r "status") (JStr "")) ;;
      n <-! count_successful more ;;
      Return (if hit then S n else n)
  end.

(** [sum(1 for r in log_results.values() if r.get("status") == "failed")] *)
Fixpoint count_failed (log : list (text * record)) : nat :=
  match log with
  | [] => 0
  | (_, r) :: more =>
      match lookup r "status" with
      | Some (JStr s) =>
          if text_eqb s "failed" then S (count_failed more)
          else count_failed more
      | _ => count_failed more
      end
  end.

Section MainLoop.

(** [process_entry] works on the network and the disk: here it is a
    parameter that takes the state of the world to a result and a new
    state, or to nothing when it raises. *)
Variable world : Type.
Variable process_entry : entry -> bool -> world -> option (record * world).

(** [for entry in entries: ...] of [main]; nothing is returned when a
    call of [process_entry] raises, which ends the program. *)
Fixpoint main_loop (dry_run : bool) (entries : list entry) (b : books)
    (w : world) : option (books * world) :=
  match entries with
  | [] => Some (b, w)
  | e :: more =>
      match process_entry e dry_run w with
      | None => None
      | Some (result, w') =>
          main_loop dry_run more (record_result dry_run e result b) w'
      end
  end.

End MainLoop.

(* ------------------------------------------------------------------ *)
(** ** Dict assignment *)

(** [d.get(key)] on a dict with values of any kind. *)
Fixpoint value_of {V : Type} (d : list (text * V)) (key : text) : option V :=
  match d with
  | [] => None
  | (k, v) :: d' => if text_eqb k key then Some v else value_of d' key
  end.

Section DictSet.

Context {V : Type}.
Implicit Types (d : list (text * V)) (v : V).

Lemma dict_set_keys d key v (k : text) :
  In k (map fst (dict_set d key v)) <-> k = key \/ In k (map fst d).
Proof.
  induction d as [|[k' v'] d IH]; simpl.
  - intuition.
  - unfold text_eqb. destruct (text_eq_dec k' key) as [->|Hne]; simpl.
    + intuition.
    + rewrite IH. intuition.
Qed.

Lemma dict_set_NoDup d key v :
  NoDup (map fst d) -> NoDup (map fst (dict_set d key v)).
Proof.
  induction d as [|[k' v'] d IH]; simpl; intros Hnd.
  - constructor; [intros [] | constructor].
  - inversion Hnd as [|? ? Hnotin Hnd']; subst.
    unfold text_eqb. destruct (text_eq_dec k' key) as [->|Hne]; simpl.
    + now constructor.
    + constructor; [|now apply IH].
      rewrite dict_set_keys. intros [-> | H]; [now apply Hne | auto].
Qed.

Lemma dict_set_values (P : V -> Prop) d key v :
  (forall kv, In kv d -> P (snd kv)) -> P v ->
  forall kv, In kv (dict_set d key v) -> P (snd kv).
Proof.
  intros Hd Hv. induction d as [|[k' v'] d IH]; simpl.
  - intros kv [<- | []]. exact Hv.
  - unfold text_eqb. destruct (text_eq_dec k' key) as [->|Hne].
    + intros kv [<- | H]; [exact Hv | apply Hd; now right].
    + intros kv [<- | H].
      * apply (Hd (k', v')). now left.
      * apply IH; [|exact H]. intros kv' H'. apply Hd. now right.
Qed.

(** What was assigned is what is read; the other keys are untouched. *)
Lemma value_of_dict_set d key v (k : text) :
  value_of (dict_set d key v) k
  = if text_eq_dec key k then Some v else value_of d k.
Proof.
  induction d as [|[k' v'] d IH]; simpl.
  - unfold text_eqb. now destruct (text_eq_dec key k).
  - unfold text_eqb in *.
    destruct (text_eq_dec k' key) as [->|Hne]; simpl; unfold text_eqb.
    + now destruct (text_eq_dec key k).
    + rewrite IH. destruct (text_eq_dec k' k) as [->|Hne'].
      * destruct (text_eq_dec key k); [congruence | reflexivity].
      * reflexivity.
Qed.

Lemma dict_set_key_kept d key v (k : text) :
  In k (map fst d) -> In k (map fst (dict_set d key v)).
Proof. intros H. apply dict_set_keys. now right. Qed.

End DictSet.

Lemma same_keys_length (l1 l2 : list text) :
  NoDup l1 -> NoDup l2 -> (forall k, In k l1 <-> In k l2) ->
  length l1 = length l2.
Proof.
  intros H1 H2 H. apply Nat.le_antisymm; apply NoDup_incl_length; auto;
    intros k Hk; now apply H.
Qed.

Lemma dict_set_In {V : Type} (d : list (text * V)) (key : text) (v : V)
    (kv : text * V) :
  In kv (dict_set d key v) -> kv = (key, v) \/ In kv d.
Proof.
  induction d as [|[k' v'] d IH]; simpl.
  - intros [<- | []]. now left.
  - unfold text_eqb. destruct (text_eq_dec k' key) as [->|Hne].
    + intros [<- | H]; [now left | right; now right].
    + intros [<- | H]; [right; now left|].
      destruct (IH H) as [-> | H']; [now left | right; now right].
Qed.

Lemma value_of_In {V : Type} (d : list (text * V)) (key : text) (v : V) :
  value_of d key = Some v -> In (key, v) d.
Proof.
  induction d as [|[k' v'] d IH]; simpl; [discriminate|].
  unfold text_eqb. destruct (text_eq_dec k' key) as [->|Hne].
  - intros [= ->]. now left.
  - intros H. right. now apply IH.
Qed.

(* ------------------------------------------------------------------ *)
(** ** What the loop keeps *)

(** The three statuses [process_entry] returns. *)
Definition status_known (r : record) : Prop :=
  exists s,
    lookup r "status" = Some (JStr s) /\
    (s = "success" \/ s = "success_dry" \/ s = "failed").

Lemma succeeded_status (r : record) :
  succeeded r = true ->
  exists s, lookup r "status" = Some (JStr s) /\
            (s = "success" \/ s = "success_dry").
Proof.
  unfold succeeded. destruct (lookup r "status") as [[| | | |s| |]|];
    try discriminate.
  intros H. exists s. split; [reflexivity|].
  apply orb_true_iff in H as [H | H]; apply text_eqb_true in H; auto.
Qed.

(** The state of the books after the entries with the ids [seen]. *)
Definition kept (dry_run : bool) (seen : list text) (b : books) : Prop :=
  NoDup (map fst (log_results b)) /\
  (forall k, In k (map fst (log_results b)) <-> In k seen) /\
  (forall kv, In kv (log_results b) -> status_known (snd kv)) /\
  (forall kv, In kv (metadata_entries b) ->
              succeeded (snd kv) = true /\ In (fst kv) seen) /\
  (if dry_run then dumped b = []
   else length (dumped b) = length seen /\
        (seen <> [] -> last (dumped b) [] = metadata_entries b)).

Lemma kept_step (dry_run : bool) (seen : list text) (b : books)
    (e : entry) (r : record) :
  status_known r -> kept dry_run seen b ->
  kept dry_run (seen ++ [iso e]) (record_result dry_run e r b).
Proof.
  intros Hr (Hnd & Hkeys & Hlog & Hmeta & Hdump).
  assert (Hseen : forall k, k = iso e \/ In k seen <-> In k (seen ++ [iso e])).
  { intros k. rewrite in_app_iff. simpl. intuition. }
  unfold record_result. destruct (succeeded r) eqn:Hs.
  - destruct (succeeded_status r Hs) as (s & Hst & Hsv).
    assert (Hnew : status_known
                     [(txt "status", or_default (lookup r "status") JNull);
                      (txt "image_file", JStr (image_file e))]).
    { exists s. rewrite Hst. split; [reflexivity | tauto]. }
    assert (K : kept true (seen ++ [iso e])
                  {| metadata_entries :=
                       dict_set (metadata_entries b) (iso e) r;
                     log_results :=
                       dict_set (log_results b) (iso e)
                         [(txt "status",
                           or_default (lookup r "status") JNull);
                          (txt "image_file", JStr (image_file e))];
                     dumped := [] |}).
    { unfold kept. cbn [metadata_entries log_results dumped].
      split; [now apply dict_set_NoDup|]. split.
      - intros k. rewrite dict_set_keys, Hkeys. apply Hseen.
      - split.
        + intros kv Hin. apply dict_set_In in Hin as [-> | Hin]; auto.
        + split; [|reflexivity].
          intros kv Hin. apply dict_set_In in Hin as [-> | Hin].
          * split; [exact Hs|]. apply Hseen. now left.
          * destruct (Hmeta kv Hin). split; [assumption|].
            apply Hseen. now right. }
    destruct K as (K1 & K2 & K3 & K4 & _).
    destruct dry_run; cbn [negb metadata_entries log_results dumped];
      unfold kept; cbn [metadata_entries log_results dumped];
      repeat (split; [assumption|]).
    + exact Hdump.
    + destruct Hdump as [Hlen _]. rewrite !length_app, Hlen.
      split; [reflexivity|]. intros _. apply last_last.
  - assert (K : kept true (seen ++ [iso e])
                  {| metadata_entries := metadata_entries b;
                     log_results := dict_set (log_results b) (iso e) r;
                     dumped := [] |}).
    { unfold kept. cbn [metadata_entries log_results dumped].
      split; [now apply dict_set_NoDup|]. split.
      - intros k. rewrite dict_set_keys, Hkeys. apply Hseen.
      - split.
        + intros kv Hin. apply dict_set_In in Hin as [-> | Hin]; auto.
        + split; [|reflexivity].
          intros kv Hin. destruct (Hmeta kv Hin). split; [assumption|].
          apply Hseen. now right. }
    destruct K as (K1 & K2 & K3 & K4 & _).
    destruct dry_run; cbn [negb metadata_entries log_results dumped];
      unfold kept; cbn [metadata_entries log_results dumped];
      repeat (split; [assumption|]).
    + exact Hdump.
    + destruct Hdump as [Hlen _]. rewrite !length_app, Hlen.
      split; [reflexivity|]. intros _. apply last_last.
Qed.

Lemma count_known (log : list (text * record)) :
  (forall kv, In kv log -> status_known (snd kv)) ->
  exists successful,
    count_successful log = Return successful /\
    successful + count_failed log = length log.
Proof.
  induction log as [|[k r] log IH]; intros H.
  - exists 0. split; reflexivity.
  - destruct IH as (n & Hn & Hsum); [intros kv Hkv; apply H; now right|].
    destruct (H (k, r) (or_introl eq_refl)) as (s & Hs & Hcase).
    cbn [snd] in Hs. cbn [count_successful count_failed length].
    rewrite Hs, Hn. cbn [or_default has_success].
    destruct Hcase as [-> | [-> | ->]].
    + exists (S n). split; [reflexivity|]. simpl. lia.
    + exists (S n). split; [reflexivity|]. simpl. lia.
    + exists n. split; [reflexivity|]. simpl. lia.
Qed.

Section MainLoopFacts.

Variable world : Type.
Variable process_entry : entry -> bool -> world -> option (record * world).

(** Every result of [process_entry] has one of its three statuses. *)
Hypothesis process_entry_status :
  forall e dry_run w r w',
    process_entry e dry_run w = Some (r, w') -> status_known r.

Lemma main_loop_kept (dry_run : bool) (entries : list entry) :
  forall seen b w b' w',
    main_loop world process_entry dry_run entries b w = Some (b', w') ->
    kept dry_run seen b ->
    kept dry_run (seen ++ map iso entries) b'.
Proof.
  induction entries as [|e entries IH]; intros seen b w b' w' Hrun Hb.
  - injection Hrun as <- <-. now rewrite app_nil_r.
  - cbn [main_loop] in Hrun.
    destruct (process_entry e dry_run w) as [[r w1]|] eqn:Hp;
      [|discriminate].
    cbn [map]. replace (seen ++ iso e :: map iso entries)
      with ((seen ++ [iso e]) ++ map iso entries)
      by (now rewrite <- app_assoc).
    apply (IH _ _ _ _ _ Hrun). apply kept_step; [|assumption].
    exact (process_entry_status _ _ _ _ _ Hp).
Qed.

Lemma kept_nothing (dry_run : bool) : kept dry_run [] no_books.
Proof.
  unfold kept, no_books. cbn [metadata_entries log_results dumped].
  split; [constructor|]. split; [reflexivity|].
  split; [intros kv []|]. split; [intros kv []|].
  destruct dry_run; [reflexivity|]. split; [reflexivity | congruence].
Qed.

Lemma main_loop_books (dry_run : bool) (entries : list entry)
    (w : world) (b' : books) (w' : world) :
  main_loop world process_entry dry_run entries no_books w = Some (b', w') ->
  kept dry_run (map iso entries) b'.
Proof.
  intros Hrun.
  exact (main_loop_kept dry_run entries [] no_books w b' w' Hrun
           (kept_nothing dry_run)).
Qed.

End MainLoopFacts.

(** A stand-in for [process_entry] in concrete runs: the world is the
    list of the outcomes to come, [true] for an image that is found. *)
Definition scripted (e : entry) (dry_run : bool) (w : list bool)
  : option (record * list bool) :=
  match w with
  | [] => None
  | found :: w' =>
      Some (if found
            then [(txt "status",
                   JStr (if dry_run then "success_dry" else "success"));
                  (txt "image_file", JStr (image_file e))]
            else [(txt "status", JStr "failed");
                  (txt "reason",
                   JStr ("Image not found on Commons: " ++ image_file e))],
            w')
  end.

Lemma scripted_status (e : entry) (dry_run : bool) (w : list bool)
    (r : record) (w' : list bool) :
  scripted e dry_run w = Some (r, w') -> status_known r.
Proof.
  destruct w as [|found w]; [discriminate|].
  intros [= <- _]. destruct found, dry_run; eexists;
    (split; [reflexivity | tauto]).
Qed.

Definition plate_entry (code id : string) : entry :=
  {| wiki_code := code; iso := id; name := id;
     image_file := "File:" ++ txt id ++ ".jpg"; section := "countries" |}.

(** X15.  After a run of the loop the log has one result for each
    distinct id, so the counts of successful and failed results add up
    to the number of results, never to more than the number of entries,
    and to the number of entries only when no two entries share an
    id. *)
Theorem log_counts_distinct_ids
    (world : Type)
    (process_entry : entry -> bool -> world -> option (record * world))
    (dry_run : bool) (entries : list entry) (w : world)
    (b' : books) (w' : world) :
  (forall e d w0 r w1,
      process_entry e d w0 = Some (r, w1) -> status_known r) ->
  main_loop world process_entry dry_run entries no_books w = Some (b', w') ->
  exists successful,
    count_successful (log_results b') = Return successful /\
    successful + count_failed (log_results b') = length (log_results b') /\
    NoDup (map fst (log_results b')) /\
    (forall k, In k (map fst (log_results b')) <-> In k (map iso entries)) /\
    length (log_results b') <= length entries /\
    (successful + count_failed (log_results b') = length entries <->
     NoDup (map iso entries)).
Proof.
  intros Hstatus Hrun.
  destruct (main_loop_books world process_entry Hstatus dry_run entries
              w b' w' Hrun) as (Hnd & Hkeys & Hlog & _).
  destruct (count_known _ Hlog) as (n & Hn & Hsum).
  exists n. split; [exact Hn|]. split; [exact Hsum|].
  split; [exact Hnd|]. split; [exact Hkeys|].
  assert (Hlen : length (log_results b') <= length entries).
  { rewrite <- (length_map fst (log_results b')),
            <- (length_map iso entries).
    apply NoDup_incl_length; [assumption|]. intros k. apply Hkeys. }
  split; [exact Hlen|]. rewrite Hsum. split.
  - intros E. apply (NoDup_incl_NoDup Hnd).
    + rewrite !length_map. lia.
    + intros k. apply Hkeys.
  - intros Hiso. rewrite <- (length_map fst (log_results b')),
                         <- (length_map iso entries).
    now apply same_keys_length.
Qed.

Lemma log_counts_distinct_ids_witness :
  exists b' w',
    main_loop (list bool) scripted false
      [plate_entry "D" "DE"; plate_entry "CY" "CY"; plate_entry "CY" "CY"]
      no_books [true; true; false]
    = Some (b', w') /\
    count_successful (log_results b') = Return 1 /\
    count_failed (log_results b') = 1 /\
    length (log_results b') <= 3.
Proof.
  eexists _, _. split; [reflexivity|].
  split; [reflexivity|]. split; [reflexivity|].
  pose proof (log_counts_distinct_ids (list bool) scripted false
                [plate_entry "D" "DE"; plate_entry "CY" "CY";
                 plate_entry "CY" "CY"]
                [true; true; false] _ _ scripted_status eq_refl)
    as (n & _ & _ & _ & _ & Hlen & _).
  exact Hlen.
Defined.

(** X16.  Every entry of the metadata is a result that succeeded, under
    the id of an entry that is also in the log.  A dry run dumps
    nothing; another run dumps the metadata once for each entry, and
    the last dump is the metadata as it is at the end. *)
Theorem metadata_entries_succeeded
    (world : Type)
    (process_entry : entry -> bool -> world -> option (record * world))
    (dry_run : bool) (entries : list entry) (w : world)
    (b' : books) (w' : world) :
  (forall e d w0 r w1,
      process_entry e d w0 = Some (r, w1) -> status_known r) ->
  main_loop world process_entry dry_run entries no_books w = Some (b', w') ->
  (forall k r,
      value_of (metadata_entries b') k = Some r ->
      succeeded r = true /\ In k (map iso entries) /\
      In k (map fst (log_results b'))) /\
  (dry_run = true -> dumped b' = []) /\
  (dry_run = false ->
   length (dumped b') = length entries /\
   (entries <> [] -> last (dumped b') [] = metadata_entries b')).
Proof.
  intros Hstatus Hrun.
  destruct (main_loop_books world process_entry Hstatus dry_run entries
              w b' w' Hrun) as (_ & Hkeys & _ & Hmeta & Hdump).
  split; [|split].
  - intros k r Hk. apply value_of_In in Hk.
    destruct (Hmeta _ Hk) as [Hs Hin]. cbn [fst snd] in *.
    split; [assumption|]. split; [assumption|]. now apply Hkeys.
  - intros ->. exact Hdump.
  - intros ->. destruct Hdump as [Hlen Hlast].
    rewrite length_map in Hlen. split; [exact Hlen|].
    intros Hne. apply Hlast. now destruct entries.
Qed.

Lemma metadata_entries_succeeded_witness :
  exists b' w',
    main_loop (list bool) scripted false
      [plate_entry "D" "DE"; plate_entry "CY" "CY"] no_books [true; false]
    = Some (b', w') /\
    map fst (metadata_entries b') = [txt "DE"] /\
    length (dumped b') = 2.
Proof.
  eexists _, _. split; [reflexivity|]. split; [reflexivity|].
  exact (proj1 (proj2 (proj2
           (metadata_entries_succeeded (list bool) scripted false
              [plate_entry "D" "DE"; plate_entry "CY" "CY"]
              [true; false] _ _ scripted_status eq_refl)) eq_refl)).
Defined.

(** X17.  A result is filed under the id of its entry, over what was
    there.  A failed result goes to the log and leaves the metadata as
    they are: when an earlier entry with the same id succeeded, the
    metadata still hold that success while the log says failed. *)
Theorem failure_keeps_old_metadata
    (dry_run : bool) (e : entry) (r : record) (b : books) :
  (succeeded r = false ->
   value_of (log_results (record_result dry_run e r b)) (iso e) = Some r /\
   metadata_entries (record_result dry_run e r b) = metadata_entries b) /\
  (succeeded r = true ->
   value_of (metadata_entries (record_result dry_run e r b)) (iso e)
   = Some r /\
   value_of (log_results (record_result dry_run e r b)) (iso e)
   = Some [(txt "status", or_default (lookup r "status") JNull);
           (txt "image_file", JStr (image_file e))]) /\
  (forall k, k <> iso e ->
     value_of (log_results (record_result dry_run e r b)) k
     = value_of (log_results b) k /\
     value_of (metadata_entries (record_result dry_run e r b)) k
     = value_of (metadata_entries b) k).
Proof.
  unfold record_result.
  split; [|split].
  - intros Hs. rewrite Hs.
    destruct dry_run; cbn [negb metadata_entries log_results];
      rewrite value_of_dict_set;
      (destruct (text_eq_dec (iso e) (iso e)); [auto | congruence]).
  - intros Hs. rewrite Hs.
    destruct dry_run; cbn [negb metadata_entries log_results];
      rewrite !value_of_dict_set;
      (destruct (text_eq_dec (iso e) (iso e)); [auto | congruence]).
  - intros k Hk.
    destruct (succeeded r), dry_run;
      cbn [negb metadata_entries log_results];
      rewrite ?value_of_dict_set;
      (destruct (text_eq_dec (iso e) k); [congruence | auto]).
Qed.

Definition cy_entry : entry := plate_entry "CY" "CY".

Definition cy_success : record :=
  [(txt "status", JStr "success"); (txt "file_name", JStr "CY_wiki.jpg")].

Definition cy_failed : record :=
  [(txt "status", JStr "failed");
   (txt "reason", JStr "Image not found on Commons: File:CY.jpg")].

Lemma failure_keeps_old_metadata_witness :
  value_of
    (metadata_entries
       (record_result false cy_entry cy_failed
          (record_result false cy_entry cy_success no_books))) "CY"
  = Some cy_success /\
  value_of
    (log_results
       (record_result false cy_entry cy_failed
          (record_result false cy_entry cy_success no_books))) "CY"
  = Some cy_failed.
Proof.
  destruct (proj1 (failure_keeps_old_metadata false cy_entry cy_failed
                     (record_result false cy_entry cy_success no_books))
              eq_refl) as [Hlog Hmeta].
  split; [rewrite Hmeta; reflexivity | exact Hlog].
Defined.

(* ================================================================== *)
(** * [_api_get] and [fetch_wikitext] *)

From Stdlib Require DecimalString.

(** [str(n)] for an [int]. *)
Definition str_int (n : Z) : text :=
  txt (DecimalString.NilZero.string_of_int (Z.to_int n)).

(** What [_api_get] reads of a [requests] response: the status code, the
    [Retry-After] header when there is one, and the decoded body, which
    is missing when [resp.json()] raises. *)
Record http_response := mk_response {
  status_code : Z;
  retry_after : option text;
  json_body : option json
}.

Inductive api_exn : Type :=
| RequestException   (* raised by [session.get] *)
| ValueError         (* [int] of a header that is no number, or a
                        negative [time.sleep] *)
| OverflowError      (* [time.sleep] of a number too large for a
                        timestamp *)
| OSError            (* [time.sleep] of a number the system call
                        rejects *)
| HTTPError          (* [raise_for_status] *)
| JSONDecodeError.   (* [resp.json()] *)

(** [time.sleep] is called with the constant [REQUEST_DELAY] or with a
    number of seconds read from a header. *)
Inductive duration : Type :=
| REQUEST_DELAY
| Seconds (n : Z).

(** What the function does to the outside, in order. *)
Inductive event : Type :=
| Sleep (d : duration)
| Get (api_url : text) (params : list (text * text))
| Print (line : text).

Section ApiGet.

(** The network, the clock and the parser of [int] are parameters:
    [session_get] answers a request, or raises when it gives nothing;
    [time_sleep] is [time.sleep] on an [int], with the exception it
    raises when it does not sleep (a negative number, or one out of the
    range of the platform's clock), and nothing when it returns;
    [py_int] is [int] on a string, with nothing for [ValueError]. *)
Variable world : Type.
Variable session_get :
  text -> list (text * text) -> world -> option http_response * world.
Variable time_sleep : Z -> option api_exn.
Variable py_int : text -> option Z.

(** The outcome of a call: the value or the exception, the events in
    order, the caller's [params] as the call leaves them, and the
    world. *)
Record api_outcome := mk_outcome {
  returned : api_exn + json;
  events : list event;
  params_after : list (text * text);
  world_after : world
}.

(** [resp.raise_for_status()] and [return resp.json()] *)
Definition finish (resp : http_response) : api_exn + json :=
  if (400 <=? status_code resp)%Z && (status_code resp <? 600)%Z
  then inl HTTPError
  else match json_body resp with
       | Some data => inr data
       | None => inl JSONDecodeError
       end.

Definition _api_get (api_url : text) (params : list (text * text))
    (w : world) : api_outcome :=
  let log := [Sleep REQUEST_DELAY] in
  let params := dict_set params "format" "json" in
  let log := log ++ [Get api_url params] in
  match session_get api_url params w with
  | (None, w) => mk_outcome (inl RequestException) log params w
  | (Some resp, w) =>
      if (status_code resp =? 429)%Z then
        match match retry_after resp with
              | Some header => py_int header
              | None => Some 60%Z
              end with
        | None => mk_outcome (inl ValueError) log params w
        | Some wait =>
            let log :=
              log ++ [Print ("  Rate-limited -- waiting "
                             ++ str_int wait ++ "s")] in
            match time_sleep wait with
            | Some raised => mk_outcome (inl raised) log params w
            | None =>
                let log := log ++ [Sleep (Seconds wait)] in
                let log := log ++ [Get api_url params] in
                match session_get api_url params w with
                | (None, w) =>
                    mk_outcome (inl RequestException) log params w
                | (Some resp, w) => mk_outcome (finish resp) log params w
                end
            end
        end
      else mk_outcome (finish resp) log params w
  end.

End ApiGet.

(** [x[key]] for a string [key]: the value of the key in a dict,
    [KeyError] when it is not there; the other values take no string
    as an index. *)
Definition py_item (x : json) (key : text) : result json :=
  match x with
  | JDict fields =>
      match lookup fields key with
      | Some v => Return v
      | None => Raise KeyError
      end
  | _ => Raise TypeError
  end.

(** [fetch_wikitext] from the answer [data] of its [_api_get] call on:
    [data["parse"]["wikitext"]["*"]]. *)
Definition fetch_wikitext (data : json) : result json :=
  parse <-! py_item data "parse" ;;
  wikitext <-! py_item parse "wikitext" ;;
  py_item wikitext "*".

(** The number of requests among the events. *)
Fixpoint requests (log : list event) : nat :=
  match log with
  | [] => 0
  | Get _ _ :: more => S (requests more)
  | _ :: more => requests more
  end.

Lemma value_of_set_same {V : Type} (d : list (text * V)) (key : text)
    (v : V) :
  value_of (dict_set d key v) key = Some v.
Proof.
  rewrite value_of_dict_set. now destruct (text_eq_dec key key).
Qed.

(** X18.  A call of [_api_get] first sleeps for [REQUEST_DELAY] and then
    sends a request; it sends one request or two, never more, and two
    only when the first answer has status 429.  Every request goes to
    the given URL with [format] set to [json], whatever the caller gave
    for it, and the caller's [params] are left with that setting. *)
Theorem api_get_requests
    (world : Type)
    (session_get :
       text -> list (text * text) -> world -> option http_response * world)
    (time_sleep : Z -> option api_exn)
    (py_int : text -> option Z)
    (api_url : text) (params : list (text * text)) (w : world) :
  let o := _api_get world session_get time_sleep py_int api_url params w in
  let sent := dict_set params "format" "json" in
  (exists more, events world o = Sleep REQUEST_DELAY :: Get api_url sent :: more) /\
  1 <= requests (events world o) <= 2 /\
  (requests (events world o) = 2 ->
   exists resp, fst (session_get api_url sent w) = Some resp /\
                status_code resp = 429%Z) /\
  (forall u p, In (Get u p) (events world o) ->
               u = api_url /\ value_of p "format" = Some (txt "json")) /\
  params_after world o = sent.
Proof.
  cbv zeta. unfold _api_get.
  repeat match goal with
         | |- context [match ?x with (_, _) => _ end] =>
             destruct x as [[?|] ?] eqn:?
         | |- context [if ?c then _ else _] => destruct c eqn:?
         | |- context [match ?x with Some _ => _ | None => _ end] =>
             destruct x eqn:?
         end;
    cbn [events params_after app requests fst];
    (split; [eexists; reflexivity|]);
    (split; [lia|]);
    (split;
     [intros E; try discriminate E; eexists;
      (split; [reflexivity | now apply Z.eqb_eq])|]);
    (split; [|reflexivity]);
    intros u p Hin; simpl in Hin;
    repeat (destruct Hin as [Hin | Hin]; [try discriminate Hin|]);
    try contradiction;
    injection Hin as <- <-;
    (split; [reflexivity | apply value_of_set_same]).
Qed.

(** A network that gives the listed answers in turn, and raises when
    the list is used up. *)
Definition answers (api_url : text) (params : list (text * text))
    (w : list http_response) : option http_response * list http_response :=
  match w with
  | [] => (None, [])
  | resp :: w' => (Some resp, w')
  end.

Definition too_many_requests : http_response :=
  {| status_code := 429; retry_after := None; json_body := None |}.

Definition ok_response (data : json) : http_response :=
  {| status_code := 200; retry_after := None; json_body := Some data |}.

(** An instance of [time_sleep] for the examples: a clock that sleeps
    for up to [limit] seconds, where a negative number raises
    [ValueError] and one above the limit [OverflowError]. *)
Definition sleep_up_to (limit wait : Z) : option api_exn :=
  if (wait <? 0)%Z then Some ValueError
  else if (limit <? wait)%Z then Some OverflowError
  else None.

(** An instance of [py_int] for the examples: the number that a
    non-empty string of decimal digits writes, and nothing for every
    other string (of those, [int] reads the ones with a sign, blanks
    around or underscores between digits). *)
Fixpoint int_of_digits (acc : Z) (s : text) : option Z :=
  match s with
  | [] => Some acc
  | c :: rest =>
      let d := Z.of_nat (nat_of_ascii c) in
      if (48 <=? d)%Z && (d <=? 57)%Z
      then int_of_digits (10 * acc + (d - 48)) rest
      else None
  end.

Definition int_of_decimal (s : text) : option Z :=
  match s with
  | [] => None
  | _ => int_of_digits 0 s
  end.

(** A 429 answer that asks for a wait of [header] seconds. *)
Definition retry_after_response (header : text) : http_response :=
  {| status_code := 429; retry_after := Some header; json_body := None |}.

Lemma api_get_requests_witness :
  requests
    (events (list http_response)
       (_api_get (list http_response) answers (sleep_up_to 86400)
          int_of_decimal
          "https://commons.wikimedia.org/w/api.php"
          [(txt "action", txt "query"); (txt "format", txt "xml")]
          [too_many_requests; too_many_requests; ok_response JNull]))
  = 2 /\
  exists resp,
    fst (answers "https://commons.wikimedia.org/w/api.php"
           (dict_set [(txt "action", txt "query"); (txt "format", txt "xml")]
              "format" "json")
           [too_many_requests; too_many_requests; ok_response JNull])
    = Some resp /\
    status_code resp = 429%Z.
Proof.
  split; [reflexivity|].
  apply (api_get_requests (list http_response) answers (sleep_up_to 86400)
           int_of_decimal
           "https://commons.wikimedia.org/w/api.php"
           [(txt "action", txt "query"); (txt "format", txt "xml")]
           [too_many_requests; too_many_requests; ok_response JNull]).
  reflexivity.
Defined.

(** The seconds to wait that a 429 answer asks for: its [Retry-After]
    header as an [int], 60 without the header. *)
Definition wait_of (py_int : text -> option Z) (resp : http_response)
  : option Z :=
  match retry_after resp with
  | Some header => py_int header
  | None => Some 60%Z
  end.

(** X19.  After a 429 answer the call prints the wait and calls
    [time.sleep] with it; the wait is 60 seconds when the answer has no
    [Retry-After] header.  When [time.sleep] returns, the call asks once
    more and the second answer decides: a second 429 raises [HTTPError]
    without another try, and a request that fails raises after two
    requests.  When [time.sleep] raises, for a negative wait or one out
    of the clock's range, the call raises the same after the one
    request, and so it does with [ValueError] for a header that [int]
    rejects, then with nothing printed. *)
Theorem api_get_rate_limited
    (world : Type)
    (session_get :
       text -> list (text * text) -> world -> option http_response * world)
    (time_sleep : Z -> option api_exn)
    (py_int : text -> option Z)
    (api_url : text) (params : list (text * text)) (w w1 : world)
    (resp : http_response) :
  let o := _api_get world session_get time_sleep py_int api_url params w in
  let sent := dict_set params "format" "json" in
  session_get api_url sent w = (Some resp, w1) ->
  status_code resp = 429%Z ->
  (forall wait resp2 w2,
      wait_of py_int resp = Some wait -> time_sleep wait = None ->
      session_get api_url sent w1 = (Some resp2, w2) ->
      returned world o = finish resp2 /\
      events world o
      = [Sleep REQUEST_DELAY; Get api_url sent;
         Print ("  Rate-limited -- waiting " ++ str_int wait ++ "s");
         Sleep (Seconds wait); Get api_url sent] /\
      world_after world o = w2 /\
      (status_code resp2 = 429%Z -> returned world o = inl HTTPError)) /\
  (forall wait w2,
      wait_of py_int resp = Some wait -> time_sleep wait = None ->
      session_get api_url sent w1 = (None, w2) ->
      returned world o = inl RequestException /\
      events world o
      = [Sleep REQUEST_DELAY; Get api_url sent;
         Print ("  Rate-limited -- waiting " ++ str_int wait ++ "s");
         Sleep (Seconds wait); Get api_url sent] /\
      world_after world o = w2) /\
  (forall wait raised,
      wait_of py_int resp = Some wait -> time_sleep wait = Some raised ->
      returned world o = inl raised /\
      events world o
      = [Sleep REQUEST_DELAY; Get api_url sent;
         Print ("  Rate-limited -- waiting " ++ str_int wait ++ "s")] /\
      world_after world o = w1) /\
  (wait_of py_int resp = None ->
   returned world o = inl ValueError /\
   events world o = [Sleep REQUEST_DELAY; Get api_url sent] /\
   world_after world o = w1) /\
  (retry_after resp = None -> wait_of py_int resp = Some 60%Z).
Proof.
  cbv zeta. intros H1 Hcode. unfold _api_get, wait_of.
  rewrite H1, Hcode. cbn [Z.eqb Pos.eqb].
  split; [|split; [|split; [|split]]].
  - intros wait resp2 w2 Hwait Hsleep H2. rewrite Hwait, Hsleep, H2.
    cbn [returned events world_after app].
    repeat split. intros Hcode2. unfold finish. now rewrite Hcode2.
  - intros wait w2 Hwait Hsleep H2. rewrite Hwait, Hsleep, H2.
    cbn [returned events world_after app]. repeat split.
  - intros wait raised Hwait Hsleep. rewrite Hwait, Hsleep.
    cbn [returned events world_after app]. repeat split.
  - intros ->. repeat split.
  - intros ->. reflexivity.
Qed.

(** An answer that asks for a wait of 9223372037 seconds, with a clock
    that sleeps for up to 9223372036: the call raises [OverflowError]
    after one request, and the second answer is never asked for. *)
Lemma api_get_rate_limited_witness :
  let o :=
    _api_get (list http_response) answers (sleep_up_to 9223372036)
      int_of_decimal
      "https://commons.wikimedia.org/w/api.php" [(txt "action", txt "query")]
      [retry_after_response "9223372037"; ok_response JNull] in
  returned (list http_response) o = inl OverflowError /\
  events (list http_response) o
  = [Sleep REQUEST_DELAY;
     Get "https://commons.wikimedia.org/w/api.php"
       [(txt "action", txt "query"); (txt "format", txt "json")];
     Print "  Rate-limited -- waiting 9223372037s"] /\
  world_after (list http_response) o = [ok_response JNull].
Proof.
  exact (proj1 (proj2 (proj2
           (api_get_rate_limited (list http_response) answers
              (sleep_up_to 9223372036) int_of_decimal
              "https://commons.wikimedia.org/w/api.php"
              [(txt "action", txt "query")]
              [retry_after_response "9223372037"; ok_response JNull]
              [ok_response JNull]
              (retry_after_response "9223372037") eq_refl eq_refl)))
           9223372037%Z OverflowError eq_refl eq_refl).
Defined.

(** X20.  [fetch_wikitext] returns a value exactly when the answer is a
    dict whose ["parse"] is a dict whose ["wikitext"] is a dict with the
    key ["*"], and then it returns the value of that key; an answer
    without ["parse"], as the API gives for an error, raises
    [KeyError]. *)
Theorem fetch_wikitext_shape (data : json) :
  (forall v,
      fetch_wikitext data = Return v <->
      exists fields parse_fields wikitext_fields,
        data = JDict fields /\
        lookup fields "parse" = Some (JDict parse_fields) /\
        lookup parse_fields "wikitext" = Some (JDict wikitext_fields) /\
        lookup wikitext_fields "*" = Some v) /\
  (forall fields,
      data = JDict fields -> lookup fields "parse" = None ->
      fetch_wikitext data = Raise KeyError).
Proof.
  split.
  - intros v. unfold fetch_wikitext. split.
    + destruct data as [| | | | | |f]; try discriminate. cbn [py_item].
      destruct (lookup f "parse") as [p|] eqn:Hp; [|discriminate].
      destruct p as [| | | | | |pf]; try discriminate. cbn [py_item].
      destruct (lookup pf "wikitext") as [t|] eqn:Ht; [|discriminate].
      destruct t as [| | | | | |wf]; try discriminate. cbn [py_item].
      destruct (lookup wf "*") as [x|] eqn:Hx; [|discriminate].
      intros [= <-]. exists f, pf, wf. auto.
    + intros (f & pf & wf & -> & Hp & Ht & Hx). cbn [py_item].
      rewrite Hp. cbn [py_item]. rewrite Ht. cbn [py_item]. now rewrite Hx.
  - intros f -> Hp. unfold fetch_wikitext. cbn [py_item]. now rewrite Hp.
Qed.

Lemma fetch_wikitext_shape_witness :
  fetch_wikitext
    (JDict [(txt "error", JDict [(txt "code", JStr "missingtitle")])])
  = Raise KeyError.
Proof.
  apply (proj2 (fetch_wikitext_shape
                  (JDict [(txt "error",
                           JDict [(txt "code", JStr "missingtitle")])]))
           [(txt "error", JDict [(txt "code", JStr "missingtitle")])]
           eq_refl eq_refl).
Defined.
